(** * hips2cotiff: the tile address mapping and the TIFF header builder

    A shallow embedding of [src/hips2cotiff.py].  Python integers are
    unbounded, so they are [Z]; [//] and [%] with a positive divisor are
    [Z.div] and [Z.modulo]; [&], [|], [^], [<<] and [>>] are [Z.land],
    [Z.lor], [Z.lxor], [Z.shiftl] and [Z.shiftr].  A byte string is a list
    of 8-bit integers. *)

From Stdlib Require Import ZArith Lia Bool String DecimalString.
From stdpp Require Import base list.

Local Open Scope Z_scope.

(** ** Address mapper *)

(** [compress_bits]: keeps the even bits of a 64-bit index and packs them
    into the low 32 bits. *)
Definition compress_bits (v : Z) : Z :=
  let res := Z.land v 0x5555555555555555 in
  let res := Z.land (Z.lxor res (Z.shiftr res 1)) 0x3333333333333333 in
  let res := Z.land (Z.lxor res (Z.shiftr res 2)) 0x0f0f0f0f0f0f0f0f in
  let res := Z.land (Z.lxor res (Z.shiftr res 4)) 0x00ff00ff00ff00ff in
  let res := Z.land (Z.lxor res (Z.shiftr res 8)) 0x0000ffff0000ffff in
  let res := Z.land (Z.lxor res (Z.shiftr res 16)) 0x00000000ffffffff in
  res.

(** [spread_bits]: moves bit [k] of a 32-bit coordinate to bit [2k]. *)
Definition spread_bits (v : Z) : Z :=
  let res := Z.land v 0xffffffff in
  let res := Z.land (Z.lxor res (Z.shiftl res 16)) 0x0000ffff0000ffff in
  let res := Z.land (Z.lxor res (Z.shiftl res 8)) 0x00ff00ff00ff00ff in
  let res := Z.land (Z.lxor res (Z.shiftl res 4)) 0x0f0f0f0f0f0f0f0f in
  let res := Z.land (Z.lxor res (Z.shiftl res 2)) 0x3333333333333333 in
  let res := Z.land (Z.lxor res (Z.shiftl res 1)) 0x5555555555555555 in
  res.

(** The expression [(spread_bits(y) << 1) | spread_bits(x)] of [main], and
    the pair of [compress_bits] calls that undoes it. *)
Definition interleave (x y : Z) : Z :=
  Z.lor (Z.shiftl (spread_bits y) 1) (spread_bits x).

Definition deinterleave (i : Z) : Z * Z :=
  (compress_bits i, compress_bits (Z.shiftr i 1)).

(** ** Tile locator: the grid scan of [main] *)

(** [1 << zoom]; Python raises for a negative shift count, which
    [main_layout] checks before anything else. *)
Definition nside (zoom : Z) : Z := Z.shiftl 1 zoom.
Definition tile_count_x (zoom : Z) : Z := nside zoom * 4.
Definition tile_count_y (zoom : Z) : Z := nside zoom * 3.
Definition total_tile (zoom : Z) : Z := tile_count_x zoom * tile_count_y zoom.
Definition nside2 (zoom : Z) : Z := nside zoom * nside zoom.

(** The body of both [for i in range(total_tile)] loops up to [ti]. *)
Definition tile_index (zoom i : Z) : Z :=
  let row := i / tile_count_x zoom in
  let col := i mod tile_count_x zoom in
  let row0 := row / nside zoom in
  let col0 := col / nside zoom in
  let f := row0 * 4 + col0 in
  let x := row mod nside zoom in
  let y := col mod nside zoom in
  f * nside2 zoom + Z.lor (Z.shiftl (spread_bits y) 1) (spread_bits x).

(** The shard number in the [os.stat] call of the offset pass, and the one
    in the [open] call of the write pass. *)
Definition offset_pass_shard (ti : Z) : Z := ti / 10000 * 100000.
Definition write_pass_shard (ti : Z) : Z := ti / 10000 * 10000.

(** [str] of a Python integer. *)
Definition pystr (z : Z) : string := NilZero.string_of_int (Z.to_int z).

(** A path is the list of components handed to [os.path.join]. *)
Abbreviation path := (list string).

Definition tile_path (root : string) (zoom shard ti : Z) : path :=
  [root; ("Norder" ++ pystr zoom)%string; ("Dir" ++ pystr shard)%string;
   ("Npix" ++ pystr ti ++ ".jpg")%string].

Definition offset_pass_path (root : string) (zoom i : Z) : path :=
  let ti := tile_index zoom i in
  tile_path root zoom (offset_pass_shard ti) ti.

Definition write_pass_path (root : string) (zoom i : Z) : path :=
  let ti := tile_index zoom i in
  tile_path root zoom (write_pass_shard ti) ti.

(** The grid cell of a global index: face, then the two coordinates from
    [compress_bits], then the row-major position.  It is the inverse the
    source names in its comment on [compress_bits]
    ("for index -> (x, y)"); [main] never calls it. *)
Definition grid_index (zoom t : Z) : Z :=
  let f := t / nside2 zoom in
  let m := t mod nside2 zoom in
  let '(x, y) := deinterleave m in
  let row := (f / 4) * nside zoom + x in
  let col := (f mod 4) * nside zoom + y in
  row * tile_count_x zoom + col.

(** The grid scan is a bijection of [0, total_tile) onto itself. *)
Definition grid_bijection (zoom : Z) : Prop :=
  (∀ i, 0 ≤ i < total_tile zoom → 0 ≤ tile_index zoom i < total_tile zoom) ∧
  (∀ t, 0 ≤ t < total_tile zoom →
     ∃ i, (0 ≤ i < total_tile zoom ∧ tile_index zoom i = t) ∧
          ∀ i', 0 ≤ i' < total_tile zoom → tile_index zoom i' = t → i' = i).

(** ** Byte strings, exceptions and [struct.pack] *)

Abbreviation bytes := (list Z).

Definition len {A} (l : list A) : Z := Z.of_nat (length l).

Inductive exn : Type :=
  | AssertionError
  | StructError
  | TypeError
  | AttributeError
  | IndexError
  | RecursionError
  | ValueError
  | FloatPacking
  | OSError (p : path).

Inductive result (A : Type) : Type :=
  | Ok (a : A)
  | Raise (e : exn).
Arguments Ok {A} a.
Arguments Raise {A} e.

Definition bind {A B} (m : result A) (k : A → result B) : result B :=
  match m with
  | Ok a => k a
  | Raise e => Raise e
  end.

Notation "'let*' x ':=' m 'in' k" := (bind m (λ x, k))
  (at level 10, x pattern, m at level 100, k at level 200).

(** A Python value stored in an entry: an [int] or a [list] of [int]s. *)
Inductive pyvalue : Type :=
  | VInt (n : Z)
  | VList (l : list Z).

(** The format characters the program uses.  With the [<] prefix the sizes
    are the standard ones and there is no padding; the tails are packed
    with the native prefix, which for a run of one character on a
    little-endian host gives the same bytes. *)
Inductive code : Type := cB | cb | cH | ch | cI | ci | cQ.

Definition code_size (c : code) : Z :=
  match c with
  | cB | cb => 1
  | cH | ch => 2
  | cI | ci => 4
  | cQ => 8
  end.

Definition code_signed (c : code) : bool :=
  match c with
  | cb | ch | ci => true
  | cB | cH | cI | cQ => false
  end.

Definition code_min (c : code) : Z :=
  if code_signed c then - 2 ^ (8 * code_size c - 1) else 0.

Definition code_max (c : code) : Z :=
  if code_signed c then 2 ^ (8 * code_size c - 1) - 1 else 2 ^ (8 * code_size c) - 1.

(** One integer argument: out of range is [struct.error]; the bytes are the
    two's-complement little-endian ones. *)
Definition pack_int (c : code) (v : Z) : result bytes :=
  if (code_min c <=? v) && (v <=? code_max c)
  then Ok (Z_to_little_endian (code_size c) 8 v)
  else Raise StructError.

Definition pack_arg (c : code) (a : pyvalue) : result bytes :=
  match a with
  | VInt v => pack_int c v
  | VList _ => Raise StructError
  end.

(** [struct.pack(fmt, *args)]: one argument per format character. *)
Fixpoint pack (fmt : list code) (args : list pyvalue) : result bytes :=
  match fmt, args with
  | [], [] => Ok []
  | c :: fmt', a :: args' =>
      let* b := pack_arg c a in
      let* bs := pack fmt' args' in
      Ok (b ++ bs)
  | _, _ => Raise StructError
  end.

(** [*value] in a call: the value has to be iterable. *)
Definition star (v : pyvalue) : result (list pyvalue) :=
  match v with
  | VList l => Ok (VInt <$> l)
  | VInt _ => Raise TypeError
  end.

(** ** Field model *)

Inductive TiffType : Type :=
  | BYTE | ASCII | SHORT | LONG | RATIONAL | SBYTE
  | UNDEFINED | SSHORT | SLONG | SRATIONAL | FLOAT | DOUBLE.

#[global] Instance TiffType_eq_dec : EqDecision TiffType.
Proof. solve_decision. Defined.

(** [int(t)] for a member of the enumeration. *)
Definition TiffType_int (t : TiffType) : Z :=
  match t with
  | BYTE => 1 | ASCII => 2 | SHORT => 3 | LONG => 4 | RATIONAL => 5
  | SBYTE => 6 | UNDEFINED => 7 | SSHORT => 8 | SLONG => 9
  | SRATIONAL => 10 | FLOAT => 11 | DOUBLE => 12
  end.

Definition TIFF_BYTES (t : TiffType) : Z :=
  match t with
  | BYTE => 1 | ASCII => 1 | SHORT => 2 | LONG => 4 | RATIONAL => 8
  | SBYTE => 1 | UNDEFINED => 1 | SSHORT => 2 | SLONG => 4
  | SRATIONAL => 8 | FLOAT => 4 | DOUBLE => 8
  end.

Module TiffEntry.

Record t : Type := mk { id : Z; type : TiffType; count : Z; value : pyvalue }.

(** [value = self.value; if not isinstance(value, list): value = [value]] *)
Definition as_list (v : pyvalue) : list Z :=
  match v with
  | VInt n => [n]
  | VList l => l
  end.

(** [(value + [0]*n)[:n]], ready to be passed as arguments. *)
Definition padded (n : nat) (v : pyvalue) : list pyvalue :=
  VInt <$> take n (as_list v ++ replicate n 0).

Definition serialize (e : t) (offset : Z) (classical : bool) : result (option bytes) :=
  let offset := if offset <? 0 then 0 else offset in
  let bytes := TIFF_BYTES (type e) in
  let size := count e * bytes in
  let head := [VInt (id e); VInt (TiffType_int (type e)); VInt (count e)] in
  if classical then
    if bool_decide (type e ∈ [BYTE; SHORT; LONG]) then
      if size <=? 4 then
        match type e with
        | BYTE =>
            let* r := pack ([cH; cH; cI] ++ replicate 4 cB) (head ++ padded 4 (value e)) in
            Ok (Some r)
        | SHORT =>
            let* r := pack ([cH; cH; cI] ++ replicate 2 cH) (head ++ padded 2 (value e)) in
            Ok (Some r)
        | LONG =>
            let* r := pack [cH; cH; cI; cI] (head ++ [value e]) in
            Ok (Some r)
        | _ => Ok None
        end
      else
        let* r := pack [cH; cH; cI; cI] (head ++ [VInt offset]) in
        Ok (Some r)
    else if bool_decide (type e ∈ [SBYTE; SSHORT; SLONG]) then
      if size <=? 4 then
        match type e with
        | BYTE =>
            let* r := pack ([cH; cH; cI] ++ replicate 4 cb) (head ++ padded 4 (value e)) in
            Ok (Some r)
        | SHORT =>
            let* r := pack ([cH; cH; cI] ++ replicate 2 ch) (head ++ padded 2 (value e)) in
            Ok (Some r)
        | LONG =>
            let* r := pack [cH; cH; cI; ci] (head ++ [value e]) in
            Ok (Some r)
        | _ => Ok None
        end
      else
        let* r := pack [cH; cH; cI; cI] (head ++ [VInt offset]) in
        Ok (Some r)
    else Raise AssertionError
  else
    if bool_decide (type e ∈ [BYTE; SHORT; LONG]) then
      if size <=? 8 then
        match type e with
        | BYTE =>
            let* r := pack ([cH; cH; cQ] ++ replicate 8 cB) (head ++ padded 8 (value e)) in
            Ok (Some r)
        | SHORT =>
            let* r := pack ([cH; cH; cQ] ++ replicate 4 cH) (head ++ padded 4 (value e)) in
            Ok (Some r)
        | LONG =>
            let* r := pack ([cH; cH; cQ] ++ replicate 2 cI) (head ++ padded 2 (value e)) in
            Ok (Some r)
        | _ => Ok None
        end
      else
        let* r := pack [cH; cH; cQ; cQ] (head ++ [VInt offset]) in
        Ok (Some r)
    else if bool_decide (type e ∈ [SBYTE; SSHORT; SLONG]) then
      if size <=? 8 then
        match type e with
        | BYTE =>
            let* r := pack ([cH; cH; cQ] ++ replicate 8 cb) (head ++ padded 8 (value e)) in
            Ok (Some r)
        | SHORT =>
            let* r := pack ([cH; cH; cQ] ++ replicate 4 ch) (head ++ padded 2 (value e)) in
            Ok (Some r)
        | LONG =>
            let* r := pack ([cH; cH; cQ] ++ replicate 2 ci) (head ++ padded 2 (value e)) in
            Ok (Some r)
        | _ => Ok None
        end
      else
        let* r := pack [cH; cH; cQ; cQ] (head ++ [VInt offset]) in
        Ok (Some r)
    else Raise AssertionError.

Definition has_tail (e : t) : bool :=
  let bytes := TIFF_BYTES (type e) in
  let size := count e * bytes in
  4 <? size.

(** The branch under [assert self.count == 0] is never reached with the
    assertion true ([has_tail] gives [4 < count * width], so [count] is at
    least 1); its [DOUBLE] case packs a float and is left as an error
    value here. *)
Definition tail (e : t) : result bytes :=
  if negb (has_tail e) then Ok []
  else if 1 <? count e then
    match type e with
    | BYTE =>
        let* args := star (value e) in
        pack (replicate (Z.to_nat (count e)) cB) args
    | ASCII => Raise AttributeError
    | SHORT =>
        let* args := star (value e) in
        pack (replicate (Z.to_nat (count e)) cH) args
    | LONG =>
        let* args := star (value e) in
        pack (replicate (Z.to_nat (count e)) cI) args
    | _ => Raise AssertionError
    end
  else
    if negb (count e =? 0) then Raise AssertionError
    else
      match type e with
      | RATIONAL =>
          let* args := star (value e) in
          pack [cI; cI] args
      | SRATIONAL =>
          let* args := star (value e) in
          pack [ci; ci] args
      | DOUBLE => Raise FloatPacking
      | _ => Raise AssertionError
      end.

End TiffEntry.

(** ** Container builder *)

Module TiffBuilder.

Record t : Type := mk { classical : bool; entries : list TiffEntry.t }.

(** [add_entry] appends and hands back the entry object; the handle is its
    position in [entries], through which later writes to its value reach
    the builder. *)
Definition add_entry (b : t) (id : Z) (type : TiffType) (count : Z) (value : pyvalue)
  : t * nat :=
  (mk (classical b) (entries b ++ [TiffEntry.mk id type count value]),
   length (entries b)).

(** The first loop of [build_header]; [header += None] is a [TypeError]. *)
Fixpoint serialize_entries (es : list TiffEntry.t) (offset : Z) (classical : bool)
    (header : bytes) (header_tail_bytes : Z) : result (bytes * Z) :=
  match es with
  | [] => Ok (header, header_tail_bytes)
  | entry :: es' =>
      let* r := TiffEntry.serialize entry (offset + header_tail_bytes) classical in
      let* record := match r with Some b => Ok b | None => Raise TypeError end in
      let* tl := TiffEntry.tail entry in
      serialize_entries es' offset classical (header ++ record) (header_tail_bytes + len tl)
  end.

(** The second loop. *)
Fixpoint append_tails (es : list TiffEntry.t) (header : bytes) : result bytes :=
  match es with
  | [] => Ok header
  | entry :: es' =>
      let* tl := TiffEntry.tail entry in
      append_tails es' (header ++ tl)
  end.

(** The body of [build_header] up to its last [if]: the header and
    [header_pointer_offset]. *)
Definition build_header_pass (b : t) (offset : Z) : result (bytes * Z) :=
  let* header :=
    if classical b then
      let* n := pack [cH] [VInt (len (entries b))] in
      Ok ([73; 73; 42; 0; 8; 0; 0; 0] ++ n)
    else
      let* p := pack [cQ] [VInt 0x10] in
      let* n := pack [cQ] [VInt (len (entries b))] in
      Ok (([73; 73; 43; 0; 8; 0; 0; 0] ++ p) ++ n) in
  let* (header, _) := serialize_entries (entries b) offset (classical b) header 0 in
  let header := if classical b then header ++ replicate 4 0 else header ++ replicate 8 0 in
  let header_pointer_offset := len header in
  let* header := append_tails (entries b) header in
  Ok (header, header_pointer_offset).

(** [build_header] calls itself when [offset < 0]; the fuel bounds the
    depth of that recursion. *)
Fixpoint build_header_fuel (fuel : nat) (b : t) (offset : Z) : option (result bytes) :=
  match fuel with
  | O => None
  | S fuel' =>
      match build_header_pass b offset with
      | Raise e => Some (Raise e)
      | Ok (header, header_pointer_offset) =>
          if offset <? 0 then build_header_fuel fuel' b header_pointer_offset
          else Some (Ok header)
      end
  end.

(** Depth two is always enough (lemma [build_header_fuel_enough]). *)
Definition build_header (b : t) (offset : Z) : result bytes :=
  match build_header_fuel 2 b offset with
  | Some r => r
  | None => Raise RecursionError
  end.

End TiffBuilder.

Module TiffTag.
Definition ImageWidth : Z := 0x100.
Definition ImageLength : Z := 0x101.
Definition BitsPerSample : Z := 0x102.
Definition Compression : Z := 0x103.
Definition PhotometricInterpretation : Z := 0x106.
Definition SamplesPerPixel : Z := 0x115.
Definition PlanarConfiguration : Z := 0x11c.
Definition TileWidth : Z := 0x142.
Definition TileLength : Z := 0x143.
Definition TileOffsets : Z := 0x144.
Definition TileByteCounts : Z := 0x145.
Definition SampleFormat : Z := 0x153.
End TiffTag.

(** ** Pyramid assembler *)

(** [l[i] = v] on a Python list: a negative index counts from the end, an
    index outside the list is an [IndexError]. *)
Definition setitem (l : list Z) (i v : Z) : result (list Z) :=
  if (0 <=? i) && (i <? len l) then Ok (<[Z.to_nat i := v]> l)
  else if (- len l <=? i) && (i <? 0) then Ok (<[Z.to_nat (len l + i) := v]> l)
  else Raise IndexError.

(** [entry.value[i] = v] for the entry object with handle [h]: the write
    goes to the list held by the builder's own entry. *)
Definition entry_setitem (es : list TiffEntry.t) (h : nat) (i v : Z)
  : result (list TiffEntry.t) :=
  match es !! h with
  | Some e =>
      match TiffEntry.value e with
      | VList l =>
          let* l' := setitem l i v in
          Ok (<[h := TiffEntry.mk (TiffEntry.id e) (TiffEntry.type e) (TiffEntry.count e) (VList l')]> es)
      | VInt _ => Raise TypeError
      end
  | None => Raise IndexError
  end.

(** The list an entry handle points at. *)
Definition entry_values (b : TiffBuilder.t) (h : nat) : list Z :=
  match TiffBuilder.entries b !! h with
  | Some e => TiffEntry.as_list (TiffEntry.value e)
  | None => []
  end.

(** What [main] has after its second [build_header]. *)
Record layout : Type := mk_layout {
  first_header : bytes;
  builder : TiffBuilder.t;
  offsets : nat;
  counts : nat;
  header : bytes;
}.

Section assembler.

(** The collaborators: [Image.open(p).size], [os.stat(p).st_size] and the
    content [open(p, "rb")] reads; [None] when the call fails. *)
Variable image_size : path → option (Z * Z).
Variable st_size : path → option Z.
Variable read_file : path → option bytes.

Definition external {A} (p : path) (r : option A) : result A :=
  match r with
  | Some a => Ok a
  | None => Raise (OSError p)
  end.

(** The twelve [add_entry] calls; the handles of [offsets] and [counts]
    are kept. *)
Definition main_builder (classical : bool) (zoom tile_width tile_height : Z)
  : TiffBuilder.t * nat * nat :=
  let image_width := tile_width * tile_count_x zoom in
  let image_height := tile_height * tile_count_y zoom in
  let builder := TiffBuilder.mk classical [] in
  let builder :=
    if classical then
      let '(builder, _) := TiffBuilder.add_entry builder TiffTag.ImageWidth SHORT 1 (VInt image_width) in
      let '(builder, _) := TiffBuilder.add_entry builder TiffTag.ImageLength SHORT 1 (VInt image_height) in
      builder
    else
      let '(builder, _) := TiffBuilder.add_entry builder TiffTag.ImageWidth LONG 1 (VInt image_width) in
      let '(builder, _) := TiffBuilder.add_entry builder TiffTag.ImageLength LONG 1 (VInt image_height) in
      builder in
  let '(builder, _) := TiffBuilder.add_entry builder TiffTag.BitsPerSample SHORT 3 (VList [8; 8; 8]) in
  let '(builder, _) := TiffBuilder.add_entry builder TiffTag.Compression SHORT 1 (VInt 0x07) in
  let '(builder, _) := TiffBuilder.add_entry builder TiffTag.PhotometricInterpretation SHORT 1 (VInt 6) in
  let '(builder, _) := TiffBuilder.add_entry builder TiffTag.SamplesPerPixel SHORT 1 (VInt 3) in
  let '(builder, _) := TiffBuilder.add_entry builder TiffTag.PlanarConfiguration SHORT 1 (VInt 1) in
  let '(builder, _) := TiffBuilder.add_entry builder TiffTag.TileWidth SHORT 1 (VInt tile_width) in
  let '(builder, _) := TiffBuilder.add_entry builder TiffTag.TileLength SHORT 1 (VInt tile_height) in
  let '(builder, offsets) :=
    TiffBuilder.add_entry builder TiffTag.TileOffsets LONG (total_tile zoom)
      (VList (replicate (Z.to_nat (total_tile zoom)) 0)) in
  let '(builder, counts) :=
    TiffBuilder.add_entry builder TiffTag.TileByteCounts LONG (total_tile zoom)
      (VList (replicate (Z.to_nat (total_tile zoom)) 0)) in
  let '(builder, _) := TiffBuilder.add_entry builder TiffTag.SampleFormat SHORT 1 (VInt 1) in
  (builder, offsets, counts).

(** The loop under [# calculate offsets], over the indices still to do. *)
Fixpoint offset_pass (todo : list Z) (root : string) (zoom : Z) (offsets counts : nat)
    (b : TiffBuilder.t) (data_head : Z) : result (TiffBuilder.t * Z) :=
  match todo with
  | [] => Ok (b, data_head)
  | i :: todo' =>
      let p := offset_pass_path root zoom i in
      let* size := external p (st_size p) in
      let* es := entry_setitem (TiffBuilder.entries b) offsets i data_head in
      let* es := entry_setitem es counts i size in
      offset_pass todo' root zoom offsets counts
        (TiffBuilder.mk (TiffBuilder.classical b) es) (data_head + size)
  end.

(** [main] from [nside = 1 << args.zoom] to the second [build_header]. *)
Definition main_layout (root : string) (zoom : Z) (classical : bool) : result layout :=
  if zoom <? 0 then Raise ValueError else
  let sample := [root; ("Norder" ++ pystr zoom)%string; "Dir0"%string; "Npix0.jpg"%string] in
  let* (tile_width, tile_height) := external sample (image_size sample) in
  let '(builder, offsets, counts) := main_builder classical zoom tile_width tile_height in
  let* header0 := TiffBuilder.build_header builder (-1) in
  let data_head := len header0 in
  let* (builder, _) :=
    offset_pass (seqZ 0 (total_tile zoom)) root zoom offsets counts builder data_head in
  let* header := TiffBuilder.build_header builder (-1) in
  Ok (mk_layout header0 builder offsets counts header).

(** The loop of the [with open(...)] block: each tile's bytes appended. *)
Fixpoint write_pass (todo : list Z) (root : string) (zoom : Z) (tiff : bytes)
  : result bytes :=
  match todo with
  | [] => Ok tiff
  | i :: todo' =>
      let p := write_pass_path root zoom i in
      let* src := external p (read_file p) in
      write_pass todo' root zoom (tiff ++ src)
  end.

(** [main]: the content of the output file. *)
Definition main (root : string) (zoom : Z) (classical : bool) : result bytes :=
  let* l := main_layout root zoom classical in
  write_pass (seqZ 0 (total_tile zoom)) root zoom (header l).

End assembler.

(** ** Quantities the statements use *)

(** The inline threshold of [serialize], the width of a record, where the
    entry table starts, and where its value slot sits in a record. *)
Definition inline_threshold (classical : bool) : Z := if classical then 4 else 8.
Definition record_width (classical : bool) : Z := if classical then 12 else 20.
Definition table_start (classical : bool) : Z := if classical then 10 else 24.
Definition slot_start (classical : bool) : Z := if classical then 8 else 12.
Definition slot_width (classical : bool) : Z := if classical then 4 else 8.

Definition payload_size (e : TiffEntry.t) : Z :=
  TiffEntry.count e * TIFF_BYTES (TiffEntry.type e).

(** The number of bytes [tail] gives when it returns. *)
Definition tail_size (e : TiffEntry.t) : Z :=
  if TiffEntry.has_tail e then payload_size e else 0.

Fixpoint tails_size (es : list TiffEntry.t) : Z :=
  match es with
  | [] => 0
  | e :: es' => tail_size e + tails_size es'
  end.

(** Where the overflow area starts: after the table and the terminator. *)
Definition overflow_base (b : TiffBuilder.t) : Z :=
  table_start (TiffBuilder.classical b)
  + len (TiffBuilder.entries b) * record_width (TiffBuilder.classical b)
  + slot_width (TiffBuilder.classical b).

Definition slice (start width : Z) (l : bytes) : bytes :=
  take (Z.to_nat width) (drop (Z.to_nat start) l).

(** The integer in the value slot of record [k] of a built header. *)
Definition stored_offset (classical : bool) (h : bytes) (k : nat) : Z :=
  little_endian_to_Z 8
    (slice (table_start classical + Z.of_nat k * record_width classical + slot_start classical)
           (slot_width classical) h).

Fixpoint sum_Z (l : list Z) : Z :=
  match l with
  | [] => 0
  | x :: l' => x + sum_Z l'
  end.

(** The total width of a format. *)
Definition fmt_size (fmt : list code) : Z := sum_Z (code_size <$> fmt).

(** The types [serialize] has a branch for. *)
Definition unsigned_bucket : list TiffType := [BYTE; SHORT; LONG].
Definition signed_bucket : list TiffType := [SBYTE; SSHORT; SLONG].

(** [tail e] returned [t]. *)
Definition tail_is (e : TiffEntry.t) (t : bytes) : Prop := TiffEntry.tail e = Ok t.

(** The offsets the offset pass writes for a list of sizes. *)
Fixpoint running (d : Z) (szs : list Z) : list Z :=
  match szs with
  | [] => []
  | s :: szs' => d :: running (d + s) szs'
  end.

(** The entry with handle [h] holds the list [l]. *)
Definition holds (es : list TiffEntry.t) (h : nat) (l : list Z) : Prop :=
  ∃ e, es !! h = Some e ∧ TiffEntry.value e = VList l.

(** What the length of a header depends on. *)
Definition shape (es : list TiffEntry.t) : list (TiffType * Z) :=
  (λ e, (TiffEntry.type e, TiffEntry.count e)) <$> es.

(** A grid index is a face row [a], a face column [c] and the two
    coordinates inside the face. *)
Definition cell (z a c x y : Z) : Z :=
  (a * nside z + x) * tile_count_x z + (c * nside z + y).

(** The bytes of a run of integers, each in [w] little-endian bytes. *)
Definition le_words (w : Z) (l : list Z) : bytes :=
  concat (Z_to_little_endian w 8 <$> l).

(** How many elements of a type fill the value slot of a record. *)
Definition slot_items (classical : bool) (ty : TiffType) : nat :=
  Z.to_nat (slot_width classical / TIFF_BYTES ty).

(** The bytes before the entry table: the magic number and the entry
    count, with the pointer to the count between them in the 64-bit
    variant. *)
Definition header_start (b : TiffBuilder.t) : bytes :=
  if TiffBuilder.classical b
  then [73; 73; 42; 0; 8; 0; 0; 0]
       ++ Z_to_little_endian 2 8 (len (TiffBuilder.entries b))
  else ([73; 73; 43; 0; 8; 0; 0; 0] ++ Z_to_little_endian 8 8 16)
       ++ Z_to_little_endian 8 8 (len (TiffBuilder.entries b)).

(** ** Bit functions of the masked shift steps *)

(** One masked xor-shift step, and what it does to the bit function. *)
Definition stage_l (s m r : Z) : Z := Z.land (Z.lxor r (Z.shiftl r s)) m.
Definition stage_r (s m r : Z) : Z := Z.land (Z.lxor r (Z.shiftr r s)) m.

Definition mask_tb (m : Z) (f : Z → bool) : Z → bool :=
  λ j, Z.testbit m j && f j.
Definition stage_l_tb (s m : Z) (f : Z → bool) : Z → bool :=
  λ j, Z.testbit m j && xorb (f j) (f (j - s)).
Definition stage_r_tb (s m : Z) (f : Z → bool) : Z → bool :=
  λ j, Z.testbit m j && xorb (f j) ((0 <=? j) && f (j + s)).

Definition spread_tb (b : Z → bool) : Z → bool :=
  stage_l_tb 1 0x5555555555555555 (stage_l_tb 2 0x3333333333333333
   (stage_l_tb 4 0x0f0f0f0f0f0f0f0f (stage_l_tb 8 0x00ff00ff00ff00ff
    (stage_l_tb 16 0x0000ffff0000ffff (mask_tb 0xffffffff b))))).

Definition compress_tb (b : Z → bool) : Z → bool :=
  stage_r_tb 16 0x00000000ffffffff (stage_r_tb 8 0x0000ffff0000ffff
   (stage_r_tb 4 0x00ff00ff00ff00ff (stage_r_tb 2 0x0f0f0f0f0f0f0f0f
    (stage_r_tb 1 0x3333333333333333 (mask_tb 0x5555555555555555 b))))).

(** * Bit-level facts *)

Lemma mask_tb_ok m r f :
  (∀ j, Z.testbit r j = f j) → ∀ j, Z.testbit (Z.land r m) j = mask_tb m f j.
Proof. intros H j. unfold mask_tb. rewrite Z.land_spec, H. apply andb_comm. Qed.

Lemma stage_l_ok s m r f :
  0 < s → (∀ j, Z.testbit r j = f j) →
  ∀ j, Z.testbit (stage_l s m r) j = stage_l_tb s m f j.
Proof.
  intros Hs H j. unfold stage_l, stage_l_tb.
  rewrite Z.land_spec, Z.lxor_spec, andb_comm. f_equal.
  destruct (Z.ltb_spec j 0).
  - rewrite <- !H, !Z.testbit_neg_r by lia. reflexivity.
  - rewrite Z.shiftl_spec, !H by lia. reflexivity.
Qed.

Lemma stage_r_ok s m r f :
  (∀ j, Z.testbit r j = f j) →
  ∀ j, Z.testbit (stage_r s m r) j = stage_r_tb s m f j.
Proof.
  intros H j. unfold stage_r, stage_r_tb.
  rewrite Z.land_spec, Z.lxor_spec, andb_comm. f_equal.
  destruct (Z.leb_spec 0 j).
  - rewrite Z.shiftr_spec, !H by lia. reflexivity.
  - rewrite <- !H, !Z.testbit_neg_r by lia. reflexivity.
Qed.

Lemma spread_tb_ok v j : Z.testbit (spread_bits v) j = spread_tb (Z.testbit v) j.
Proof.
  revert j. unfold spread_bits, spread_tb. cbv zeta.
  repeat (apply stage_l_ok; [lia|]). apply mask_tb_ok. reflexivity.
Qed.

Lemma compress_tb_ok v j :
  Z.testbit (compress_bits v) j = compress_tb (Z.testbit v) j.
Proof.
  revert j. unfold compress_bits, compress_tb. cbv zeta.
  repeat apply stage_r_ok. apply mask_tb_ok. reflexivity.
Qed.

Lemma below_64 (P : Z → Prop) :
  Forall P (Z.of_nat <$> seq 0 64) → ∀ j, 0 ≤ j < 64 → P j.
Proof.
  intros H j Hj. rewrite Forall_forall in H. apply H.
  apply list_elem_of_fmap. exists (Z.to_nat j). split; [lia|].
  apply elem_of_seq. lia.
Qed.

(** Each of the 64 positions is settled by running the bit function on an
    abstract input. *)
Ltac blast_bit v :=
  rewrite ?spread_tb_ok, ?compress_tb_ok;
  generalize (Z.testbit v); intros b; vm_compute;
  repeat match goal with |- context [b ?k] => destruct (b k) end; reflexivity.

Ltac blast_64 v :=
  apply below_64;
  cbv [fmap list_fmap seq Z.of_nat Pos.of_succ_nat Pos.succ];
  repeat (apply List.Forall_cons; [ blast_bit v | ]); apply List.Forall_nil.

Lemma spread_bits_low v :
  ∀ j, 0 ≤ j < 64 → Z.testbit (spread_bits v) j = Z.even j && Z.testbit v (j / 2).
Proof. blast_64 v. Qed.

Lemma compress_bits_low v :
  ∀ j, 0 ≤ j < 64 → Z.testbit (compress_bits v) j = (j <? 32) && Z.testbit v (2 * j).
Proof. blast_64 v. Qed.

Lemma spread_bits_spec v j :
  Z.testbit (spread_bits v) j
  = (0 <=? j) && (j <? 64) && Z.even j && Z.testbit v (j / 2).
Proof.
  destruct (Z.leb_spec 0 j) as [Hn|Hn].
  2:{ rewrite Z.testbit_neg_r by lia. reflexivity. }
  destruct (Z.ltb_spec j 64) as [Hj|Hj].
  - rewrite spread_bits_low by lia. reflexivity.
  - unfold spread_bits. cbv zeta. rewrite Z.land_spec.
    rewrite (Z.bits_above_log2 0x5555555555555555 j)
      by (change (Z.log2 0x5555555555555555) with 62; lia).
    apply andb_false_r.
Qed.

Lemma compress_bits_spec v j :
  Z.testbit (compress_bits v) j = (0 <=? j) && (j <? 32) && Z.testbit v (2 * j).
Proof.
  destruct (Z.leb_spec 0 j) as [Hn|Hn].
  2:{ rewrite Z.testbit_neg_r by lia. reflexivity. }
  destruct (Z.ltb_spec j 64) as [Hj|Hj].
  - rewrite compress_bits_low by lia. reflexivity.
  - unfold compress_bits. cbv zeta. rewrite Z.land_spec.
    rewrite (Z.bits_above_log2 0xffffffff j)
      by (change (Z.log2 0xffffffff) with 31; lia).
    destruct (Z.ltb_spec j 32); [lia | apply andb_false_r].
Qed.

(** * Address mapper: the round trips *)

(** [lia] after division and modulo are replaced by their equations. *)
Ltac dlia := Z.to_euclidean_division_equations; lia.

(** Decides the integer comparisons in the goal, one after the other. *)
Ltac zbool :=
  repeat match goal with
  | |- context [?a <=? ?b] => destruct (Z.leb_spec a b); try lia
  | |- context [?a <? ?b] => destruct (Z.ltb_spec a b); try lia
  end; simpl.

Lemma testbit_above x k j : 0 ≤ x < 2 ^ k → k ≤ j → Z.testbit x j = false.
Proof.
  intros [H0 H1] Hj. destruct (decide (x = 0)) as [->|Hx]; [apply Z.bits_0|].
  assert (0 ≤ k) by (destruct (Z.leb_spec 0 k); [done|]; rewrite Z.pow_neg_r in H1; lia).
  apply Z.bits_above_log2; [lia|].
  apply Z.lt_le_trans with k; [|done]. apply Z.log2_lt_pow2; lia.
Qed.

Lemma lt_pow2_of_bits x k :
  0 ≤ k → 0 ≤ x → (∀ j, k ≤ j → Z.testbit x j = false) → x < 2 ^ k.
Proof.
  intros Hk Hx H.
  assert (x = x mod 2 ^ k) as ->.
  { apply Z.bits_inj'. intros n Hn. rewrite Z.testbit_mod_pow2 by lia.
    destruct (Z.ltb_spec n k); simpl; auto. }
  apply Z.mod_pos_bound. apply Z.pow_pos_nonneg; lia.
Qed.

Lemma even_pred_double k : Z.even (2 * k - 1) = false.
Proof. replace (2 * k - 1) with (2 * (k - 1) + 1) by lia. apply Z.even_odd. Qed.

Lemma even_double k : Z.even (2 * k) = true.
Proof. rewrite Z.even_mul. reflexivity. Qed.

Lemma parity_cases j : (∃ k, j = 2 * k) ∨ (∃ k, j = 2 * k + 1).
Proof.
  destruct (Z.even j) eqn:E.
  - left. apply Z.even_spec in E. exact E.
  - right. rewrite <- Z.negb_odd in E. apply negb_false_iff, Z.odd_spec in E. exact E.
Qed.

Lemma spread_bits_even v k :
  Z.testbit (spread_bits v) (2 * k) = (0 <=? k) && (k <? 32) && Z.testbit v k.
Proof.
  rewrite spread_bits_spec, even_double.
  replace (2 * k / 2) with k by dlia. zbool; reflexivity.
Qed.

Lemma spread_bits_odd v k : Z.testbit (spread_bits v) (2 * k + 1) = false.
Proof. rewrite spread_bits_spec, Z.even_odd. zbool; reflexivity. Qed.

Lemma spread_bits_nonneg v : 0 ≤ spread_bits v.
Proof. unfold spread_bits. cbv zeta. apply Z.land_nonneg. right. lia. Qed.

Lemma compress_bits_nonneg v : 0 ≤ compress_bits v.
Proof. unfold compress_bits. cbv zeta. apply Z.land_nonneg. right. lia. Qed.

Lemma interleave_nonneg x y : 0 ≤ interleave x y.
Proof.
  unfold interleave. apply Z.lor_nonneg. split.
  - apply Z.shiftl_nonneg, spread_bits_nonneg.
  - apply spread_bits_nonneg.
Qed.

Lemma interleave_even x y k :
  0 ≤ k → Z.testbit (interleave x y) (2 * k) = (k <? 32) && Z.testbit x k.
Proof.
  intros Hk. unfold interleave. rewrite Z.lor_spec, Z.shiftl_spec by lia.
  replace (2 * k - 1) with (2 * (k - 1) + 1) by lia.
  rewrite spread_bits_odd, spread_bits_even. zbool; reflexivity.
Qed.

Lemma interleave_odd x y k :
  0 ≤ k → Z.testbit (interleave x y) (2 * k + 1) = (k <? 32) && Z.testbit y k.
Proof.
  intros Hk. unfold interleave. rewrite Z.lor_spec, Z.shiftl_spec by lia.
  replace (2 * k + 1 - 1) with (2 * k) by lia.
  rewrite spread_bits_odd, spread_bits_even, orb_false_r. zbool; reflexivity.
Qed.

Lemma compress_interleave_x x y : 0 ≤ x < 2 ^ 32 → compress_bits (interleave x y) = x.
Proof.
  intros Hx. apply Z.bits_inj'. intros j Hj.
  rewrite compress_bits_spec, interleave_even by lia.
  zbool; [reflexivity|]. symmetry. apply (testbit_above x 32); lia.
Qed.

Lemma compress_interleave_y x y :
  0 ≤ y < 2 ^ 32 → compress_bits (Z.shiftr (interleave x y) 1) = y.
Proof.
  intros Hy. apply Z.bits_inj'. intros j Hj.
  rewrite compress_bits_spec, Z.shiftr_spec, interleave_odd by lia.
  zbool; [reflexivity|]. symmetry. apply (testbit_above y 32); lia.
Qed.

Lemma interleave_lt x y z :
  0 ≤ z ≤ 32 → 0 ≤ x < 2 ^ z → 0 ≤ y < 2 ^ z → interleave x y < 2 ^ (2 * z).
Proof.
  intros Hz Hx Hy. apply lt_pow2_of_bits; [lia|apply interleave_nonneg|].
  intros j Hj. destruct (parity_cases j) as [[k ->]|[k ->]].
  - rewrite interleave_even by lia. rewrite (testbit_above x z) by lia.
    apply andb_false_r.
  - rewrite interleave_odd by lia. rewrite (testbit_above y z) by lia.
    apply andb_false_r.
Qed.

Lemma compress_lt m z :
  0 ≤ z → 0 ≤ m < 2 ^ (2 * z) →
  compress_bits m < 2 ^ z ∧ compress_bits (Z.shiftr m 1) < 2 ^ z.
Proof.
  intros Hz Hm. split; (apply lt_pow2_of_bits; [lia|apply compress_bits_nonneg|]);
    intros j Hj; rewrite compress_bits_spec.
  - rewrite (testbit_above m (2 * z)) by lia. apply andb_false_r.
  - rewrite Z.shiftr_spec by lia. rewrite (testbit_above m (2 * z)) by lia.
    apply andb_false_r.
Qed.

Lemma interleave_compress m :
  0 ≤ m < 2 ^ 64 →
  interleave (compress_bits m) (compress_bits (Z.shiftr m 1)) = m.
Proof.
  intros Hm. apply Z.bits_inj'. intros j Hj.
  destruct (parity_cases j) as [[k ->]|[k ->]].
  - rewrite interleave_even, compress_bits_spec by lia.
    zbool; [reflexivity|]. symmetry. apply (testbit_above m 64); lia.
  - rewrite interleave_odd, compress_bits_spec, Z.shiftr_spec by lia.
    zbool; [reflexivity|]. symmetry. apply (testbit_above m 64); lia.
Qed.

(** C2: for unsigned 32-bit [x] and [y], [deinterleave (interleave x y)]
    is the pair [(x, y)]. *)
Theorem deinterleave_interleave (x y : Z) :
  0 ≤ x < 2 ^ 32 → 0 ≤ y < 2 ^ 32 →
  deinterleave (interleave x y) = (x, y).
Proof.
  intros Hx Hy. unfold deinterleave.
  rewrite compress_interleave_x, compress_interleave_y by assumption.
  reflexivity.
Qed.

Lemma deinterleave_interleave_witness :
  deinterleave (interleave 0xdeadbeef 0x0badf00d) = (0xdeadbeef, 0x0badf00d).
Proof. apply deinterleave_interleave; lia. Defined.

(** * Tile locator: the grid scan is a bijection *)

Lemma nside_pow z : nside z = 2 ^ z.
Proof. apply Z.shiftl_1_l. Qed.

Lemma nside_pos z : 0 ≤ z → 0 < nside z.
Proof. intros. rewrite nside_pow. apply Z.pow_pos_nonneg; lia. Qed.

Lemma nside2_pow z : 0 ≤ z → nside2 z = 2 ^ (2 * z).
Proof.
  intros. unfold nside2. rewrite nside_pow, <- Z.pow_add_r by lia.
  f_equal. lia.
Qed.

Lemma total_tile_eq z : total_tile z = 12 * nside2 z.
Proof. unfold total_tile, tile_count_x, tile_count_y, nside2. ring. Qed.

Lemma div_mod_pack q r d :
  0 ≤ r < d → (q * d + r) / d = q ∧ (q * d + r) mod d = r.
Proof.
  intros Hr. split; symmetry.
  - apply (Z.div_unique _ d q r); lia.
  - apply (Z.mod_unique _ d q r); lia.
Qed.


Lemma cell_range z a c x y :
  0 ≤ z → 0 ≤ a < 3 → 0 ≤ c < 4 → 0 ≤ x < nside z → 0 ≤ y < nside z →
  0 ≤ cell z a c x y < total_tile z.
Proof.
  intros Hz Ha Hc Hx Hy. unfold cell, total_tile, tile_count_x, tile_count_y.
  pose proof (nside_pos z Hz). nia.
Qed.

Lemma cell_exists z i :
  0 ≤ z → 0 ≤ i < total_tile z →
  ∃ a c x y, 0 ≤ a < 3 ∧ 0 ≤ c < 4 ∧ 0 ≤ x < nside z ∧ 0 ≤ y < nside z ∧
             i = cell z a c x y.
Proof.
  intros Hz Hi. pose proof (nside_pos z Hz) as Hn.
  unfold total_tile, tile_count_x, tile_count_y in Hi.
  set (n := nside z) in *.
  pose proof (Z.div_mod i (n * 4) ltac:(lia)) as E1.
  pose proof (Z.mod_pos_bound i (n * 4) ltac:(lia)) as B1.
  assert (0 ≤ i / (n * 4) < n * 3) as B2.
  { split; [apply Z.div_pos; lia|]. apply Z.div_lt_upper_bound; lia. }
  pose proof (Z.div_mod (i / (n * 4)) n ltac:(lia)) as E2.
  pose proof (Z.mod_pos_bound (i / (n * 4)) n ltac:(lia)) as B3.
  pose proof (Z.div_mod (i mod (n * 4)) n ltac:(lia)) as E3.
  pose proof (Z.mod_pos_bound (i mod (n * 4)) n ltac:(lia)) as B4.
  exists (i / (n * 4) / n), (i mod (n * 4) / n),
         ((i / (n * 4)) mod n), ((i mod (n * 4)) mod n).
  repeat split; try lia.
  - apply Z.div_pos; lia.
  - apply Z.div_lt_upper_bound; lia.
  - apply Z.div_pos; lia.
  - apply Z.div_lt_upper_bound; lia.
  - unfold cell, tile_count_x. fold n. lia.
Qed.

Lemma tile_index_cell z a c x y :
  0 ≤ z → 0 ≤ c < 4 → 0 ≤ x < nside z → 0 ≤ y < nside z →
  tile_index z (cell z a c x y) = (a * 4 + c) * nside2 z + interleave x y.
Proof.
  intros Hz Hc Hx Hy. unfold tile_index, cell, tile_count_x.
  assert (0 ≤ c * nside z + y < nside z * 4) as Hcol by nia.
  destruct (div_mod_pack (a * nside z + x) (c * nside z + y) (nside z * 4) Hcol)
    as [-> ->].
  destruct (div_mod_pack a x (nside z) Hx) as [-> ->].
  destruct (div_mod_pack c y (nside z) Hy) as [-> ->].
  reflexivity.
Qed.

Lemma grid_index_face z f m :
  0 ≤ m < nside2 z →
  grid_index z (f * nside2 z + m)
  = cell z (f / 4) (f mod 4) (compress_bits m) (compress_bits (Z.shiftr m 1)).
Proof.
  intros Hm. unfold grid_index.
  destruct (div_mod_pack f m (nside2 z) Hm) as [-> ->].
  reflexivity.
Qed.

Lemma tile_index_range z i :
  0 ≤ z ≤ 32 → 0 ≤ i < total_tile z → 0 ≤ tile_index z i < total_tile z.
Proof.
  intros Hz Hi.
  destruct (cell_exists z i) as (a & c & x & y & Ha & Hc & Hx & Hy & ->); [lia|done|].
  rewrite tile_index_cell by (done || lia).
  pose proof (interleave_nonneg x y).
  pose proof (interleave_lt x y z Hz) as Hlt.
  rewrite <- nside_pow, <- nside2_pow in Hlt by lia.
  specialize (Hlt Hx Hy). rewrite total_tile_eq. nia.
Qed.

Lemma grid_of_tile z i :
  0 ≤ z ≤ 32 → 0 ≤ i < total_tile z → grid_index z (tile_index z i) = i.
Proof.
  intros Hz Hi.
  destruct (cell_exists z i) as (a & c & x & y & Ha & Hc & Hx & Hy & ->); [lia|done|].
  rewrite tile_index_cell by (done || lia).
  pose proof (interleave_nonneg x y).
  pose proof (interleave_lt x y z Hz) as Hlt.
  rewrite <- nside_pow, <- nside2_pow in Hlt by lia.
  specialize (Hlt Hx Hy).
  rewrite grid_index_face by lia.
  destruct (div_mod_pack a c 4 Hc) as [-> ->].
  assert (2 ^ z ≤ 2 ^ 32) by (apply Z.pow_le_mono_r; lia).
  rewrite nside_pow in Hx, Hy.
  rewrite compress_interleave_x, compress_interleave_y by lia.
  reflexivity.
Qed.

Lemma tile_of_grid z t :
  0 ≤ z ≤ 32 → 0 ≤ t < total_tile z →
  0 ≤ grid_index z t < total_tile z ∧ tile_index z (grid_index z t) = t.
Proof.
  intros Hz Ht. rewrite total_tile_eq in Ht.
  assert (0 < nside2 z) as Hn2.
  { unfold nside2. pose proof (nside_pos z ltac:(lia)). nia. }
  pose proof (Z.div_mod t (nside2 z) ltac:(lia)) as E.
  pose proof (Z.mod_pos_bound t (nside2 z) Hn2) as Hm.
  assert (0 ≤ t / nside2 z < 12) as Hf.
  { split; [apply Z.div_pos; lia|apply Z.div_lt_upper_bound; lia]. }
  set (f := t / nside2 z) in *. set (m := t mod nside2 z) in *.
  replace t with (f * nside2 z + m) by lia.
  rewrite grid_index_face by done.
  assert (0 ≤ m < 2 ^ (2 * z)) as Hm' by (rewrite <- nside2_pow; lia).
  destruct (compress_lt m z ltac:(lia) Hm') as [Hx Hy].
  pose proof (compress_bits_nonneg m).
  pose proof (compress_bits_nonneg (Z.shiftr m 1)).
  rewrite <- nside_pow in Hx, Hy.
  assert (0 ≤ f / 4 < 3 ∧ 0 ≤ f mod 4 < 4 ∧ f / 4 * 4 + f mod 4 = f) as (Ha & Hc & Hfe)
    by (clear -Hf; dlia).
  split; [apply cell_range; lia|].
  rewrite tile_index_cell by lia. rewrite Hfe.
  rewrite interleave_compress; [reflexivity|].
  assert (2 ^ (2 * z) ≤ 2 ^ 64) by (apply Z.pow_le_mono_r; lia). lia.
Qed.

(** C3, as amended: for every zoom level from 0 to 32 the grid scan maps
    [0, 12 n^2) onto itself, every global index being produced by exactly
    one grid cell. *)
Theorem tile_index_bijection (zoom : Z) :
  0 ≤ zoom ≤ 32 → grid_bijection zoom.
Proof.
  intros Hz. split.
  - intros i Hi. apply tile_index_range; done.
  - intros t Ht. destruct (tile_of_grid zoom t Hz Ht) as [Hr He].
    exists (grid_index zoom t). split; [done|].
    intros i' Hi' E. rewrite <- E. symmetry. apply grid_of_tile; done.
Qed.

Lemma tile_index_bijection_witness : grid_bijection 2.
Proof. apply tile_index_bijection. lia. Defined.

(** C3 as stated fails at zoom 33: the coordinates are masked to 32 bits,
    so the grid cells 0 and 2^67 (row 2^32, column 0) both give index 0. *)
Lemma tile_index_not_injective_33 : ¬ grid_bijection 33.
Proof.
  intros [_ H]. destruct (H 0) as (i & _ & Huniq).
  { vm_compute. split; [discriminate|reflexivity]. }
  assert (0 = i) as E0.
  { apply Huniq; [vm_compute; split; [discriminate|reflexivity]|reflexivity]. }
  assert (2 ^ 67 = i) as E1.
  { apply Huniq; [vm_compute; split; [discriminate|reflexivity]|reflexivity]. }
  rewrite <- E0 in E1. discriminate E1.
Qed.

(** * The two sharding rules *)

Lemma total_tile_le_3072 z : 0 ≤ z ≤ 4 → total_tile z ≤ 3072.
Proof.
  intros Hz.
  assert (z = 0 ∨ z = 1 ∨ z = 2 ∨ z = 3 ∨ z = 4) as [->|[->|[->|[->| ->]]]] by lia;
    vm_compute; discriminate.
Qed.

(** C1, at the last grid cell of zoom 5: the offset pass asks for the size
    of a file under [Dir100000], the write pass copies the one under
    [Dir10000]. *)
Theorem shard_rules_differ_at_zoom_5 :
  0 ≤ 12287 < total_tile 5 ∧
  tile_index 5 12287 = 12287 ∧
  offset_pass_shard (tile_index 5 12287) = 100000 ∧
  write_pass_shard (tile_index 5 12287) = 10000 ∧
  ∀ root : string,
    offset_pass_path root 5 12287
      = [root; "Norder5"; "Dir100000"; "Npix12287.jpg"]%string ∧
    write_pass_path root 5 12287
      = [root; "Norder5"; "Dir10000"; "Npix12287.jpg"]%string ∧
    offset_pass_path root 5 12287 ≠ write_pass_path root 5 12287.
Proof.
  split; [vm_compute; split; [discriminate|reflexivity]|].
  split; [reflexivity|]. split; [reflexivity|]. split; [reflexivity|].
  intros root.
  assert (offset_pass_path root 5 12287
          = [root; "Norder5"; "Dir100000"; "Npix12287.jpg"]%string) as E1
    by reflexivity.
  assert (write_pass_path root 5 12287
          = [root; "Norder5"; "Dir10000"; "Npix12287.jpg"]%string) as E2
    by reflexivity.
  split; [exact E1|]. split; [exact E2|].
  rewrite E1, E2. intros E. discriminate E.
Qed.

(** X6: from zoom 5 on (up to zoom 32) the grid scan reaches index 10000,
    and at the grid cell that gives it the offset pass and the write pass
    name different files. *)
Lemma shard_rules_differ_from_zoom_5 root zoom :
  5 ≤ zoom ≤ 32 →
  ∃ i, 0 ≤ i < total_tile zoom ∧ tile_index zoom i = 10000 ∧
       offset_pass_path root zoom i ≠ write_pass_path root zoom i.
Proof.
  intros Hz.
  assert (0 ≤ 10000 < total_tile zoom) as Ht.
  { rewrite total_tile_eq, nside2_pow by lia.
    assert (2 ^ 10 ≤ 2 ^ (2 * zoom)) by (apply Z.pow_le_mono_r; lia). lia. }
  destruct (tile_of_grid zoom 10000 ltac:(lia) Ht) as [Hr He].
  exists (grid_index zoom 10000). split; [done|]. split; [done|].
  unfold offset_pass_path, write_pass_path. cbv zeta. rewrite He.
  unfold tile_path. intros E. injection E as E. vm_compute in E. discriminate E.
Qed.

Lemma small_zoom_index zoom i :
  0 ≤ zoom ≤ 4 → 0 ≤ i < total_tile zoom →
  0 ≤ tile_index zoom i ≤ 3071 ∧ tile_index zoom i / 10000 = 0.
Proof.
  intros Hz Hi.
  pose proof (tile_index_range zoom i ltac:(lia) Hi) as Hr.
  pose proof (total_tile_le_3072 zoom Hz) as Ht.
  split; [lia|]. apply Z.div_small. lia.
Qed.

Lemma small_zoom_paths root zoom i :
  0 ≤ zoom ≤ 4 → 0 ≤ i < total_tile zoom →
  offset_pass_path root zoom i = write_pass_path root zoom i.
Proof.
  intros Hz Hi. destruct (small_zoom_index zoom i Hz Hi) as [_ Hd].
  unfold offset_pass_path, write_pass_path, offset_pass_shard, write_pass_shard.
  cbv zeta. rewrite Hd. reflexivity.
Qed.

(** C10: up to zoom 4 every index of the grid scan is at most 3071, both
    shard numbers are 0 and both passes name the same file under [Dir0]. *)
Theorem shard_rules_agree_up_to_zoom_4 (root : string) (zoom i : Z) :
  0 ≤ zoom ≤ 4 → 0 ≤ i < total_tile zoom →
  tile_index zoom i ≤ 3071 ∧ tile_index zoom i < 10000 ∧
  offset_pass_shard (tile_index zoom i) = 0 ∧
  write_pass_shard (tile_index zoom i) = 0 ∧
  offset_pass_path root zoom i = write_pass_path root zoom i ∧
  write_pass_path root zoom i
    = [root; ("Norder" ++ pystr zoom)%string; "Dir0"%string;
       ("Npix" ++ pystr (tile_index zoom i) ++ ".jpg")%string].
Proof.
  intros Hz Hi. destruct (small_zoom_index zoom i Hz Hi) as [Hr Hd].
  pose proof (small_zoom_paths root zoom i Hz Hi) as Hp.
  unfold write_pass_path, offset_pass_shard, write_pass_shard in *.
  cbv zeta. rewrite Hd in *. repeat split; try lia; done.
Qed.

Lemma shard_rules_agree_up_to_zoom_4_witness :
  tile_index 2 77 ≤ 3071 ∧ tile_index 2 77 < 10000 ∧
  offset_pass_shard (tile_index 2 77) = 0 ∧
  write_pass_shard (tile_index 2 77) = 0 ∧
  offset_pass_path "hips" 2 77 = write_pass_path "hips" 2 77 ∧
  write_pass_path "hips" 2 77
    = ["hips"%string; ("Norder" ++ pystr 2)%string; "Dir0"%string;
       ("Npix" ++ pystr (tile_index 2 77) ++ ".jpg")%string].
Proof.
  apply shard_rules_agree_up_to_zoom_4; [lia|].
  vm_compute. split; [discriminate|reflexivity].
Defined.

(** * Field model *)

Lemma bind_Ok {A B} (m : result A) (k : A → result B) (b : B) :
  bind m k = Ok b ↔ ∃ a, m = Ok a ∧ k a = Ok b.
Proof.
  destruct m as [a|e]; simpl; split.
  - intros H. exists a. done.
  - intros (a' & [= ->] & H). done.
  - intros [=].
  - intros (a' & [=] & _).
Qed.

Lemma bind_Raise {A B} (m : result A) (k : A → result B) (e : exn) :
  bind m k = Raise e ↔ m = Raise e ∨ ∃ a, m = Ok a ∧ k a = Raise e.
Proof.
  destruct m as [a|e']; simpl; split.
  - intros H. right. exists a. done.
  - intros [[=]|(a' & [= ->] & H)]. done.
  - intros [= ->]. left. done.
  - intros [[= ->]|(a' & [=] & _)]. done.
Qed.

(** Takes a successful chain of binds apart. *)
Ltac inv_bind :=
  repeat match goal with
  | H : bind _ _ = Ok _ |- _ =>
      let a := fresh "r" in let E := fresh "E" in
      apply bind_Ok in H; destruct H as (a & E & H); cbv beta in H
  | H : Ok _ = Ok _ |- _ => injection H as H
  | H : Raise _ = Ok _ |- _ => discriminate H
  end.


#[local] Arguments pack : simpl never.
#[local] Arguments TiffEntry.padded : simpl never.
#[local] Arguments Z.mul : simpl never.
#[local] Arguments Z.leb : simpl never.
#[local] Arguments Z.ltb : simpl never.

Lemma code_size_pos c : 0 < code_size c.
Proof. destruct c; reflexivity. Qed.

Lemma pack_int_Ok c v b :
  pack_int c v = Ok b →
  b = Z_to_little_endian (code_size c) 8 v ∧ code_min c ≤ v ≤ code_max c.
Proof.
  unfold pack_int. destruct (Z.leb_spec (code_min c) v), (Z.leb_spec v (code_max c));
    simpl; intros [=]; subst; split; (done || lia).
Qed.

Lemma pack_int_length c v b : pack_int c v = Ok b → len b = code_size c.
Proof.
  intros [-> _]%pack_int_Ok. unfold len.
  apply length_Z_to_little_endian; pose proof (code_size_pos c); lia.
Qed.

Lemma pack_cons c fmt a args :
  pack (c :: fmt) (a :: args)
  = let* b := pack_arg c a in let* bs := pack fmt args in Ok (b ++ bs).
Proof. reflexivity. Qed.

Lemma pack_cons_Ok c fmt a args r :
  pack (c :: fmt) (a :: args) = Ok r →
  ∃ b bs, pack_arg c a = Ok b ∧ pack fmt args = Ok bs ∧ r = b ++ bs.
Proof.
  rewrite pack_cons. intros H. inv_bind. subst. eauto.
Qed.

Lemma pack_raises fmt args e : pack fmt args = Raise e → e = StructError.
Proof.
  revert args. induction fmt as [|c fmt IH]; intros [|a args];
    try (intros [= <-]; reflexivity).
  rewrite pack_cons.
  intros [H|(b & _ & H)]%bind_Raise.
  - destruct a; simpl in H; [|injection H as <-; done].
    unfold pack_int in H. destruct (_ && _); [discriminate|]. injection H as <-. done.
  - apply bind_Raise in H as [H|(bs & _ & [=])]. eauto.
Qed.

Lemma len_app {A} (l k : list A) : len (l ++ k) = len l + len k.
Proof. unfold len. rewrite length_app. lia. Qed.

Lemma len_nonneg {A} (l : list A) : 0 ≤ len l.
Proof. unfold len. lia. Qed.

Lemma pack_length fmt args r : pack fmt args = Ok r → len r = fmt_size fmt.
Proof.
  revert args r. induction fmt as [|c fmt IH]; intros [|a args] r;
    try (intros [=]; subst; reflexivity).
  rewrite pack_cons. intros H. inv_bind. subst. rewrite len_app.
  unfold fmt_size in *. simpl. rewrite (IH _ _ E0).
  destruct a; simpl in E; [|discriminate]. rewrite (pack_int_length _ _ _ E). done.
Qed.

Lemma fmt_size_replicate n c : fmt_size (replicate n c) = Z.of_nat n * code_size c.
Proof.
  unfold fmt_size. induction n as [|n IH]; simpl replicate; [reflexivity|].
  rewrite fmap_cons. simpl sum_Z. rewrite IH. lia.
Qed.


(** C9: [serialize] raises the assertion error exactly for the six types
    outside the two buckets, under either variant; inside the buckets it
    never does. *)
Theorem serialize_unsupported_iff (e : TiffEntry.t) (offset : Z) (classical : bool) :
  TiffEntry.serialize e offset classical = Raise AssertionError
  ↔ TiffEntry.type e ∈ [ASCII; RATIONAL; UNDEFINED; SRATIONAL; FLOAT; DOUBLE].
Proof.
  destruct e as [i ty n v]. simpl.
  assert (∀ fmt args (r : result (option bytes)),
            r = (let* x := pack fmt args in Ok (Some x)) → r ≠ Raise AssertionError)
    as Hpack.
  { intros fmt args r -> [H|(x & _ & [=])]%bind_Raise.
    apply pack_raises in H. discriminate H. }
  split.
  - intros H. destruct ty; try (repeat constructor; fail); exfalso;
      revert H; unfold TiffEntry.serialize; simpl;
      destruct classical; simpl; destruct (_ <=? _);
      first [discriminate | eapply Hpack; reflexivity].
  - intros H. destruct ty;
      try (exfalso; rewrite !elem_of_cons, elem_of_nil in H; intuition discriminate);
      unfold TiffEntry.serialize; destruct classical; reflexivity.
Qed.

Lemma slice_middle (a b c d : bytes) (s w : Z) :
  len (a ++ b) = s → len c = w → slice s w (a ++ b ++ c ++ d) = c.
Proof.
  intros Hs Hw. unfold slice, len in *. rewrite app_assoc.
  rewrite drop_app_length' by lia. apply take_app_length'. lia.
Qed.

(** A record that [serialize] returns has the width of its variant. *)
Lemma serialize_length e offset classical r :
  TiffEntry.serialize e offset classical = Ok (Some r) →
  len r = record_width classical.
Proof.
  destruct e as [i ty n v]. unfold TiffEntry.serialize. simpl.
  destruct classical, ty; simpl; try discriminate;
    destruct (_ <=? _); try discriminate;
    intros H; inv_bind; subst;
    match goal with E : pack _ _ = Ok _ |- _ => rewrite (pack_length _ _ _ E) end;
    reflexivity.
Qed.

(** The inline branch of the signed bucket has no case for a signed type. *)
Lemma signed_inline_falls_through e offset classical :
  TiffEntry.type e ∈ signed_bucket →
  payload_size e ≤ inline_threshold classical →
  TiffEntry.serialize e offset classical = Ok None.
Proof.
  destruct e as [i ty n v]. unfold payload_size, TiffEntry.serialize. simpl.
  intros Hty Hsz. unfold signed_bucket in Hty.
  rewrite !elem_of_cons, elem_of_nil in Hty.
  destruct Hty as [->|[->|[->|[]]]]; destruct classical; simpl in *;
    match goal with |- context [?a <=? ?b] => destruct (Z.leb_spec a b) end;
    (reflexivity || lia).
Qed.

(** X9: inside the signed bucket the inline branch compares the type with
    [BYTE], [SHORT] and [LONG], none of which is in the bucket: for every
    signed entry that fits inline [serialize] falls off its end and returns
    [None], whatever the payload and the offset. *)
Lemma serialize_signed_inline e offset classical :
  TiffEntry.type e ∈ signed_bucket →
  payload_size e ≤ inline_threshold classical →
  TiffEntry.serialize e offset classical = Ok None.
Proof.
  intros Hty Hsz. exact (signed_inline_falls_through e offset classical Hty Hsz).
Qed.

(** In the unsigned bucket an inline record has the variant's width and
    carries the declared count in its count field. *)
Lemma serialize_unsigned_inline e offset classical r :
  TiffEntry.type e ∈ unsigned_bucket →
  payload_size e ≤ inline_threshold classical →
  TiffEntry.serialize e offset classical = Ok (Some r) →
  len r = record_width classical ∧
  slice 4 (slot_start classical - 4) r
  = Z_to_little_endian (slot_start classical - 4) 8 (TiffEntry.count e).
Proof.
  intros Hty Hsz H. split; [eapply serialize_length; eassumption|].
  destruct e as [i ty n v]. unfold payload_size, TiffEntry.serialize in *.
  simpl in *. unfold unsigned_bucket in Hty.
  rewrite !elem_of_cons, elem_of_nil in Hty.
  destruct Hty as [->|[->|[->|[]]]]; destruct classical; simpl in *;
    match goal with H : context [?a <=? ?b] |- _ =>
      destruct (Z.leb_spec a b); [|lia] end;
    inv_bind; subst;
    repeat match goal with
    | E : pack (_ :: _) (_ :: _) = Ok _ |- _ =>
        apply pack_cons_Ok in E; destruct E as (? & ? & ? & E & ->)
    | E : pack_arg _ (VInt _) = Ok _ |- _ =>
        simpl in E; pose proof (pack_int_length _ _ _ E);
        apply pack_int_Ok in E; destruct E as [-> _]
    end;
    simpl code_size in *;
    try change (8 - 4) with 4; try change (12 - 4) with 8;
    apply slice_middle; rewrite ?len_app; lia.
Qed.

(** C5, at a failing input: a signed short with one element fits inline
    under both variants, and [serialize] returns [None] rather than a
    record; a header with such an entry cannot be built. *)
Theorem serialize_signed_inline_gives_no_record :
  payload_size (TiffEntry.mk 0x153 SSHORT 1 (VInt 1)) ≤ inline_threshold true ∧
  TiffEntry.serialize (TiffEntry.mk 0x153 SSHORT 1 (VInt 1)) (-1) true = Ok None ∧
  TiffEntry.serialize (TiffEntry.mk 0x153 SSHORT 1 (VInt 1)) (-1) false = Ok None ∧
  TiffEntry.serialize (TiffEntry.mk 0x153 SHORT 1 (VInt 1)) (-1) true
    = Ok (Some [0x53; 0x01; 3; 0; 1; 0; 0; 0; 1; 0; 0; 0]) ∧
  TiffBuilder.build_header
    (TiffBuilder.mk true [TiffEntry.mk 0x153 SSHORT 1 (VInt 1)]) (-1)
    = Raise TypeError.
Proof. repeat split; vm_compute; congruence. Qed.

(** * Tails *)

Lemma tail_small e : payload_size e ≤ 4 → TiffEntry.tail e = Ok [].
Proof.
  unfold payload_size, TiffEntry.tail, TiffEntry.has_tail. intros H.
  destruct (Z.ltb_spec 4 (TiffEntry.count e * TIFF_BYTES (TiffEntry.type e)));
    [lia|reflexivity].
Qed.

(** With a tail and a count of at most one, [tail] stops at its
    [assert self.count == 0]: the cases under it are never run. *)
Lemma tail_scalar_branch e :
  TiffEntry.has_tail e = true → TiffEntry.count e ≤ 1 →
  TiffEntry.tail e = Raise AssertionError.
Proof.
  unfold TiffEntry.tail. intros Ht Hc. rewrite Ht. simpl.
  unfold TiffEntry.has_tail in Ht. apply Z.ltb_lt in Ht.
  destruct (Z.ltb_spec 1 (TiffEntry.count e)); [lia|].
  destruct (Z.eqb_spec (TiffEntry.count e) 0) as [E|E]; [|reflexivity].
  rewrite E in Ht. lia.
Qed.

Lemma TIFF_BYTES_pos ty : 0 < TIFF_BYTES ty.
Proof. destruct ty; reflexivity. Qed.

(** When [tail] returns, it returns [tail_size] bytes. *)
Lemma tail_length e tl : TiffEntry.tail e = Ok tl → len tl = tail_size e.
Proof.
  unfold TiffEntry.tail, tail_size, payload_size.
  destruct (TiffEntry.has_tail e) eqn:Ht; simpl; [|intros [= <-]; reflexivity].
  unfold TiffEntry.has_tail in Ht. apply Z.ltb_lt in Ht.
  destruct (Z.ltb_spec 1 (TiffEntry.count e)) as [Hc|Hc].
  - destruct (TiffEntry.type e); try discriminate; intros H; inv_bind;
      rewrite (pack_length _ _ _ H), fmt_size_replicate; simpl; lia.
  - destruct (Z.eqb_spec (TiffEntry.count e) 0) as [E|E]; simpl; [|discriminate].
    rewrite E in Ht. lia.
Qed.

(** C4, at a failing input: the bits-per-sample entry of [main] has six
    payload bytes, which the 64-bit variant stores inline, and [tail]
    still returns those six bytes for the overflow area. *)
Theorem tail_of_inline_entry_not_empty :
  payload_size (TiffEntry.mk TiffTag.BitsPerSample SHORT 3 (VList [8; 8; 8]))
    ≤ inline_threshold false ∧
  TiffEntry.serialize (TiffEntry.mk TiffTag.BitsPerSample SHORT 3 (VList [8; 8; 8])) 0 false
    = Ok (Some [2; 1; 3; 0; 3; 0; 0; 0; 0; 0; 0; 0; 8; 0; 8; 0; 8; 0; 0; 0]) ∧
  TiffEntry.tail (TiffEntry.mk TiffTag.BitsPerSample SHORT 3 (VList [8; 8; 8]))
    = Ok [8; 0; 8; 0; 8; 0].
Proof. repeat split; vm_compute; congruence. Qed.

(** * Container builder *)

Lemma tails_length es tls : Forall2 tail_is es tls → len (concat tls) = tails_size es.
Proof.
  induction 1 as [|e t es tls Ht _ IH]; [reflexivity|].
  simpl. rewrite len_app, IH, (tail_length e t Ht). reflexivity.
Qed.

Lemma tails_unique es tls1 tls2 :
  Forall2 tail_is es tls1 → Forall2 tail_is es tls2 → tls1 = tls2.
Proof.
  intros H. revert tls2. induction H as [|e t es tls Ht _ IH]; intros tls2 H2;
    inversion H2 as [|? t2 ? tls2' Ht2 H2']; subst; [reflexivity|].
  unfold tail_is in *. rewrite Ht in Ht2. injection Ht2 as <-.
  f_equal. apply IH. done.
Qed.

Lemma len_concat_uniform (w : Z) (recs : list bytes) :
  Forall (λ r, len r = w) recs → len (concat recs) = len recs * w.
Proof.
  induction 1 as [|r recs Hr _ IH]; [reflexivity|].
  simpl. rewrite len_app, IH, Hr. unfold len. simpl length. lia.
Qed.

(** What the first loop of [build_header] leaves: one record per entry,
    each serialized at the base offset plus the tails before it. *)
Lemma serialize_entries_spec es : ∀ offset c hdr htb hdr' htb',
  TiffBuilder.serialize_entries es offset c hdr htb = Ok (hdr', htb') →
  ∃ recs tls,
    hdr' = hdr ++ concat recs ∧ htb' = htb + len (concat tls) ∧
    Forall2 tail_is es tls ∧ length recs = length es ∧
    Forall (λ r, len r = record_width c) recs ∧
    ∀ k e, es !! k = Some e →
      ∃ r, recs !! k = Some r ∧
           TiffEntry.serialize e (offset + htb + len (concat (take k tls))) c = Ok (Some r).
Proof.
  induction es as [|e es IH]; intros offset c hdr htb hdr' htb' H; simpl in H.
  - injection H as <- <-. exists [], []. simpl. rewrite app_nil_r.
    repeat split; try done; try (unfold len; simpl; lia); constructor.
  - inv_bind. destruct r as [rec|]; [|discriminate]. injection E0 as <-.
    apply IH in H as (recs & tls & -> & -> & Ht & Hl & Hw & Hk).
    exists (rec :: recs), (r1 :: tls). simpl. repeat split.
    + rewrite app_assoc. reflexivity.
    + rewrite len_app. lia.
    + constructor; done.
    + lia.
    + constructor; [eapply serialize_length; eassumption|done].
    + intros [|k] e' He'; simpl in *.
      * injection He' as <-. exists rec. split; [done|].
        replace (offset + htb + len []) with (offset + htb) by (unfold len; simpl; lia).
        done.
      * destruct (Hk k e' He') as (r' & Hr' & Hs). exists r'. split; [done|].
        rewrite len_app.
        replace (offset + htb + (len r1 + len (concat (take k tls))))
          with (offset + (htb + len r1) + len (concat (take k tls))) by lia.
        done.
Qed.

Lemma append_tails_spec es : ∀ hdr h,
  TiffBuilder.append_tails es hdr = Ok h →
  ∃ tls, Forall2 tail_is es tls ∧ h = hdr ++ concat tls.
Proof.
  induction es as [|e es IH]; intros hdr h H; simpl in H.
  - injection H as <-. exists []. simpl. rewrite app_nil_r. split; [constructor|done].
  - inv_bind. apply IH in H as (tls & Ht & ->).
    exists (r :: tls). simpl. split; [constructor; done|].
    rewrite app_assoc. done.
Qed.

(** The shape of one pass: table start, records, terminator, tails. *)
Lemma build_header_pass_spec b offset h hpo :
  TiffBuilder.build_header_pass b offset = Ok (h, hpo) →
  ∃ pre recs tls,
    h = (pre ++ concat recs ++ replicate (Z.to_nat (slot_width (TiffBuilder.classical b))) 0)
        ++ concat tls ∧
    len pre = table_start (TiffBuilder.classical b) ∧
    length recs = length (TiffBuilder.entries b) ∧
    Forall (λ r, len r = record_width (TiffBuilder.classical b)) recs ∧
    Forall2 tail_is (TiffBuilder.entries b) tls ∧
    hpo = overflow_base b ∧
    ∀ k e, TiffBuilder.entries b !! k = Some e →
      ∃ r, recs !! k = Some r ∧
           TiffEntry.serialize e (offset + len (concat (take k tls)))
             (TiffBuilder.classical b) = Ok (Some r).
Proof.
  unfold TiffBuilder.build_header_pass. intros H. inv_bind.
  destruct r0 as [hdr htb]. inv_bind. subst h hpo.
  apply serialize_entries_spec in E0 as (recs & tls & -> & _ & Ht & Hl & Hw & Hk).
  apply append_tails_spec in E1 as (tls' & Ht' & ->).
  rewrite (tails_unique _ _ _ Ht' Ht).
  assert (len r = table_start (TiffBuilder.classical b)) as Hpre.
  { clear -E. revert E. destruct (TiffBuilder.classical b); intros E; inv_bind; subst;
      repeat match goal with
      | E : pack _ _ = Ok _ |- _ => apply pack_length in E
      end;
      unfold len, fmt_size in *; simpl in *; rewrite ?length_app; lia. }
  exists r, recs, tls.
  assert ((if TiffBuilder.classical b
           then (r ++ concat recs) ++ replicate 4 0
           else (r ++ concat recs) ++ replicate 8 0)
          = r ++ concat recs
            ++ replicate (Z.to_nat (slot_width (TiffBuilder.classical b))) 0) as Hterm.
  { destruct (TiffBuilder.classical b); rewrite <- app_assoc; reflexivity. }
  rewrite Hterm. repeat split; try done.
  - unfold overflow_base. clear -Hw Hpre Hl. revert Hw Hpre.
    destruct (TiffBuilder.classical b); intros Hw Hpre;
      rewrite !len_app, (len_concat_uniform _ _ Hw), Hpre; unfold len;
      rewrite Hl; simpl; lia.
  - intros k e He. destruct (Hk k e He) as (r' & Hr' & Hs). exists r'.
    split; [done|]. rewrite Z.add_0_r in Hs. done.
Qed.

Lemma build_header_pass_base b offset h hpo :
  TiffBuilder.build_header_pass b offset = Ok (h, hpo) → hpo = overflow_base b.
Proof.
  intros H. apply build_header_pass_spec in H.
  destruct H as (pre & recs & tls & _ & _ & _ & _ & _ & Hb & _). exact Hb.
Qed.

Lemma overflow_base_nonneg b : 0 ≤ overflow_base b.
Proof.
  unfold overflow_base. pose proof (len_nonneg (TiffBuilder.entries b)).
  destruct (TiffBuilder.classical b); simpl; lia.
Qed.

(** [build_header] is one pass when the offset is given and two when it
    is not; the second pass is at the offset the first one found. *)
Lemma build_header_Ok b offset h :
  TiffBuilder.build_header b offset = Ok h →
  if offset <? 0
  then ∃ h1, TiffBuilder.build_header_pass b offset = Ok (h1, overflow_base b) ∧
             TiffBuilder.build_header_pass b (overflow_base b) = Ok (h, overflow_base b)
  else TiffBuilder.build_header_pass b offset = Ok (h, overflow_base b).
Proof.
  unfold TiffBuilder.build_header. simpl.
  destruct (TiffBuilder.build_header_pass b offset) as [[h1 p1]|e1] eqn:E1;
    [|discriminate].
  pose proof (build_header_pass_base _ _ _ _ E1) as ->.
  destruct (offset <? 0); [|intros [= ->]; done].
  destruct (TiffBuilder.build_header_pass b (overflow_base b)) as [[h2 p2]|e2] eqn:E2;
    [|discriminate].
  pose proof (build_header_pass_base _ _ _ _ E2) as ->.
  pose proof (overflow_base_nonneg b).
  destruct (Z.ltb_spec (overflow_base b) 0); [lia|].
  intros [= ->]. exists h1. done.
Qed.

Lemma build_header_fuel_enough fuel b offset :
  (2 ≤ fuel)%nat →
  TiffBuilder.build_header_fuel fuel b offset = Some (TiffBuilder.build_header b offset).
Proof.
  intros Hf. destruct fuel as [|[|fuel]]; [lia|lia|].
  unfold TiffBuilder.build_header. simpl.
  destruct (TiffBuilder.build_header_pass b offset) as [[h1 p1]|e1] eqn:E1; [|done].
  pose proof (build_header_pass_base _ _ _ _ E1) as ->.
  destruct (offset <? 0); [|done].
  destruct (TiffBuilder.build_header_pass b (overflow_base b)) as [[h2 p2]|e2] eqn:E2;
    [|done].
  pose proof (build_header_pass_base _ _ _ _ E2) as ->.
  pose proof (overflow_base_nonneg b).
  destruct (Z.ltb_spec (overflow_base b) 0); [lia|done].
Qed.

Lemma build_header_pass_length b offset h hpo :
  TiffBuilder.build_header_pass b offset = Ok (h, hpo) →
  len h = overflow_base b + tails_size (TiffBuilder.entries b).
Proof.
  intros H.
  pose proof (build_header_pass_spec _ _ _ _ H)
    as (pre & recs & tls & -> & Hpre & Hl & Hw & Ht & _ & _).
  rewrite !len_app, (len_concat_uniform _ _ Hw), Hpre, (tails_length _ _ Ht).
  unfold overflow_base, len. rewrite Hl, length_replicate.
  destruct (TiffBuilder.classical b); simpl; lia.
Qed.

(** The length of a built header: the fixed part and the tails, whatever
    the offset and whatever the values. *)
Lemma build_header_length b offset h :
  TiffBuilder.build_header b offset = Ok h →
  len h = overflow_base b + tails_size (TiffBuilder.entries b).
Proof.
  intros H. apply build_header_Ok in H. destruct (offset <? 0).
  - destruct H as (h1 & _ & H2). eapply build_header_pass_length; eassumption.
  - eapply build_header_pass_length; eassumption.
Qed.

(** C6: for a fixed entry sequence the length of the built header does not
    depend on the base offset; the first pass of the default call has the
    length of the header returned, the second pass is at the offset the
    first one found and finds the same one, and the recursion never goes
    deeper than two. *)
Theorem header_length_independent_of_base (b : TiffBuilder.t) (o1 o2 : Z) (h1 h2 : bytes) :
  0 ≤ o1 → 0 ≤ o2 →
  TiffBuilder.build_header b o1 = Ok h1 →
  TiffBuilder.build_header b o2 = Ok h2 →
  length h1 = length h2 ∧
  (∀ h, TiffBuilder.build_header b (-1) = Ok h →
        ∃ p1 base,
          TiffBuilder.build_header_pass b (-1) = Ok (p1, base) ∧
          TiffBuilder.build_header_pass b base = Ok (h, base) ∧
          length p1 = length h) ∧
  (∀ fuel offset, (2 ≤ fuel)%nat →
        TiffBuilder.build_header_fuel fuel b offset
        = Some (TiffBuilder.build_header b offset)).
Proof.
  intros _ _ H1 H2. split; [|split].
  - apply build_header_length in H1, H2. unfold len in *. lia.
  - intros h H. apply build_header_Ok in H. simpl in H.
    destruct H as (p1 & Hp1 & Hp2). exists p1, (overflow_base b).
    repeat split; try done.
    apply build_header_pass_length in Hp1, Hp2. unfold len in *. lia.
  - intros fuel offset Hf. apply build_header_fuel_enough. done.
Qed.

Lemma header_length_independent_of_base_witness :
  ∃ h1 h2,
    TiffBuilder.build_header
      (TiffBuilder.mk true [TiffEntry.mk 0x144 LONG 3 (VList [1; 2; 3])]) 0 = Ok h1 ∧
    TiffBuilder.build_header
      (TiffBuilder.mk true [TiffEntry.mk 0x144 LONG 3 (VList [1; 2; 3])]) 100 = Ok h2 ∧
    length h1 = length h2.
Proof.
  eexists _, _. split; [vm_compute; reflexivity|]. split; [vm_compute; reflexivity|].
  apply (header_length_independent_of_base
           (TiffBuilder.mk true [TiffEntry.mk 0x144 LONG 3 (VList [1; 2; 3])]) 0 100);
    [lia|lia|vm_compute; reflexivity|vm_compute; reflexivity].
Defined.

(** * Overflow offsets *)

Lemma slice_at (a c d : bytes) (s w : Z) :
  len a = s → len c = w → slice s w (a ++ c ++ d) = c.
Proof.
  intros Hs Hw. unfold slice, len in *.
  rewrite drop_app_length' by lia. apply take_app_length'. lia.
Qed.

Lemma concat_middle {A} (ls : list (list A)) (k : nat) (l : list A) :
  ls !! k = Some l →
  concat ls = concat (take k ls) ++ l ++ concat (drop (S k) ls).
Proof.
  intros H. rewrite <- (take_drop_middle ls k l H) at 1.
  rewrite concat_app. reflexivity.
Qed.

(** An overflow record ends with the offset it was given. *)
Lemma serialize_overflow e offset classical r :
  inline_threshold classical < payload_size e → 0 ≤ offset →
  TiffEntry.serialize e offset classical = Ok (Some r) →
  ∃ hd, r = hd ++ Z_to_little_endian (slot_width classical) 8 offset ∧
        len hd = slot_start classical ∧
        0 ≤ offset < 2 ^ (8 * slot_width classical).
Proof.
  destruct e as [i ty n v]. unfold payload_size, TiffEntry.serialize. simpl.
  intros Hsz Hoff.
  destruct (Z.ltb_spec offset 0) as [?|_]; [lia|].
  destruct classical, ty; simpl in *; try discriminate;
    (match goal with |- context [?a <=? ?b] => destruct (Z.leb_spec a b); [lia|] end);
    intros Hser; inv_bind; subst;
    repeat match goal with
    | E : pack (_ :: _) (_ :: _) = Ok _ |- _ =>
        apply pack_cons_Ok in E; destruct E as (? & ? & ? & E & ->)
    | E : pack_arg _ (VInt _) = Ok _ |- _ =>
        simpl in E; pose proof (pack_int_length _ _ _ E);
        apply pack_int_Ok in E; destruct E as [-> ?]
    | E : pack [] [] = Ok _ |- _ => injection E as <-
    end;
    simpl code_size in *;
    match goal with
    | |- ∃ hd, ?a ++ ?b ++ ?c ++ ?d ++ [] = _ ∧ _ =>
        exists (a ++ b ++ c); rewrite app_nil_r, <- !app_assoc, !len_app
    end;
    (split; [reflexivity|]); (split; [lia|]);
    unfold code_min, code_max in *; simpl in *; lia.
Qed.

(** C7: in a header built by the default call, the value slot of the
    record of an entry above the variant's threshold holds the position of
    that entry's own tail: the header is the fixed part followed by the
    tails in entry order, the stored offset is the length of the fixed
    part plus the lengths of the tails before it, and the bytes there are
    the entry's tail. *)
Theorem overflow_offset_points_at_own_tail
    (b : TiffBuilder.t) (h : bytes) (k : nat) (e : TiffEntry.t) :
  TiffBuilder.build_header b (-1) = Ok h →
  TiffBuilder.entries b !! k = Some e →
  inline_threshold (TiffBuilder.classical b) < payload_size e →
  ∃ fixed tls tl,
    h = fixed ++ concat tls ∧
    len fixed = overflow_base b ∧
    Forall2 tail_is (TiffBuilder.entries b) tls ∧
    tls !! k = Some tl ∧
    stored_offset (TiffBuilder.classical b) h k
      = overflow_base b + len (concat (take k tls)) ∧
    slice (stored_offset (TiffBuilder.classical b) h k) (len tl) h = tl.
Proof.
  intros Hb He Hsz.
  apply build_header_Ok in Hb. simpl in Hb. destruct Hb as (h1 & _ & Hp).
  pose proof (build_header_pass_spec _ _ _ _ Hp)
    as (pre & recs & tls & -> & Hpre & Hl & Hw & Ht & _ & Hk).
  destruct (Hk k e He) as (r & Hr & Hs).
  destruct (Forall2_lookup_l _ _ _ _ _ Ht He) as (tl & Htl & _).
  set (c := TiffBuilder.classical b) in *.
  set (fixed := pre ++ concat recs ++ replicate (Z.to_nat (slot_width c)) 0).
  assert (len fixed = overflow_base b) as Hfixed.
  { unfold fixed. rewrite !len_app, (len_concat_uniform _ _ Hw), Hpre.
    unfold overflow_base, len. fold c. rewrite Hl, length_replicate.
    destruct c; simpl; lia. }
  set (off := overflow_base b + len (concat (take k tls))) in *.
  assert (0 ≤ off) as Hoff.
  { unfold off. pose proof (overflow_base_nonneg b).
    pose proof (len_nonneg (concat (take k tls))). lia. }
  destruct (serialize_overflow e off c r Hsz Hoff Hs) as (hd & -> & Hhd & Hrange).
  assert (stored_offset c (fixed ++ concat tls) k = off) as Hstored.
  { unfold stored_offset, fixed.
    rewrite (concat_middle recs k _ Hr), <- !app_assoc.
    rewrite (app_assoc pre), (app_assoc (pre ++ _)).
    rewrite slice_at.
    - rewrite little_endian_to_Z_to_little_endian by (destruct c; simpl; lia).
      apply Z.mod_small. replace (slot_width c * 8) with (8 * slot_width c) by lia.
      done.
    - rewrite !len_app, Hpre.
      rewrite (len_concat_uniform (record_width c)) by (apply Forall_take; done).
      unfold len in *. rewrite length_take_le; [lia|].
      apply lookup_lt_Some in Hr. lia.
    - apply length_Z_to_little_endian; destruct c; simpl; lia. }
  exists fixed, tls, tl. repeat split; try done.
  rewrite Hstored. rewrite (concat_middle tls k tl Htl), app_assoc.
  apply slice_at; [|reflexivity].
  rewrite len_app, Hfixed. reflexivity.
Qed.

Lemma overflow_offset_points_at_own_tail_witness :
  ∃ h,
    TiffBuilder.build_header
      (TiffBuilder.mk false
         [TiffEntry.mk 0x102 SHORT 3 (VList [8; 8; 8]);
          TiffEntry.mk 0x144 LONG 3 (VList [1; 2; 3])]) (-1) = Ok h ∧
    ∃ fixed tls tl,
      h = fixed ++ concat tls ∧
      len fixed = 72 ∧
      Forall2 tail_is
        [TiffEntry.mk 0x102 SHORT 3 (VList [8; 8; 8]);
         TiffEntry.mk 0x144 LONG 3 (VList [1; 2; 3])] tls ∧
      tls !! 1%nat = Some tl ∧
      stored_offset false h 1 = 72 + len (concat (take 1 tls)) ∧
      slice (stored_offset false h 1) (len tl) h = tl.
Proof.
  eexists. split; [vm_compute; reflexivity|].
  apply (overflow_offset_points_at_own_tail
           (TiffBuilder.mk false
              [TiffEntry.mk 0x102 SHORT 3 (VList [8; 8; 8]);
               TiffEntry.mk 0x144 LONG 3 (VList [1; 2; 3])]) _ 1
           (TiffEntry.mk 0x144 LONG 3 (VList [1; 2; 3])));
    [vm_compute; reflexivity|reflexivity|vm_compute; reflexivity].
Defined.

(** * The offset pass *)

Lemma sum_Z_app l k : sum_Z (l ++ k) = sum_Z l + sum_Z k.
Proof. induction l as [|x l IH]; simpl; lia. Qed.

Lemma sum_Z_take_S szs i c :
  szs !! i = Some c → sum_Z (take (S i) szs) = sum_Z (take i szs) + c.
Proof.
  intros H. rewrite (take_S_r _ _ _ H), sum_Z_app. simpl. lia.
Qed.

Lemma length_running d szs : length (running d szs) = length szs.
Proof. revert d. induction szs as [|s szs IH]; intros d; simpl; [done|]. by rewrite IH. Qed.

Lemma running_lookup szs : ∀ d i c,
  szs !! i = Some c → running d szs !! i = Some (d + sum_Z (take i szs)).
Proof.
  induction szs as [|s szs IH]; intros d i c H; [done|].
  destruct i as [|i]; simpl in *.
  - f_equal. lia.
  - rewrite (IH (d + s) i c H). f_equal. lia.
Qed.

Lemma tail_size_shape e e' :
  TiffEntry.type e = TiffEntry.type e' → TiffEntry.count e = TiffEntry.count e' →
  tail_size e = tail_size e'.
Proof.
  intros Ht Hc. unfold tail_size, TiffEntry.has_tail, payload_size.
  rewrite Ht, Hc. reflexivity.
Qed.

Lemma tails_size_shape es : ∀ es', shape es = shape es' → tails_size es = tails_size es'.
Proof.
  induction es as [|e es IH]; intros [|e' es'] H; try done.
  unfold shape in H. rewrite !fmap_cons in H. injection H as Ht Hc H.
  simpl. rewrite (tail_size_shape e e' Ht Hc), (IH es' H). reflexivity.
Qed.

Lemma shape_length es es' : shape es = shape es' → length es = length es'.
Proof.
  intros H. apply (f_equal length) in H. unfold shape in H.
  rewrite !length_fmap in H. exact H.
Qed.

Lemma setitem_in_range l i v :
  0 ≤ i < len l → setitem l i v = Ok (<[Z.to_nat i := v]> l).
Proof.
  intros Hi. unfold setitem.
  destruct (Z.leb_spec 0 i), (Z.ltb_spec i (len l)); simpl; (reflexivity || lia).
Qed.

(** A write through a handle changes the list behind that handle and
    nothing else. *)
Lemma entry_setitem_spec es h i v l es' :
  holds es h l → 0 ≤ i < len l →
  entry_setitem es h i v = Ok es' →
  holds es' h (<[Z.to_nat i := v]> l) ∧ shape es' = shape es ∧
  ∀ h' l', h' ≠ h → holds es h' l' → holds es' h' l'.
Proof.
  intros (e & He & Hv) Hi. unfold entry_setitem. rewrite He, Hv.
  rewrite (setitem_in_range _ _ _ Hi). simpl. intros [= <-].
  pose proof (lookup_lt_Some _ _ _ He) as Hlt. repeat split.
  - eexists. rewrite list_lookup_insert_eq by done. split; reflexivity.
  - unfold shape. rewrite list_fmap_insert. simpl.
    apply list_insert_id. rewrite list_lookup_fmap, He. reflexivity.
  - intros h' l' Hne (e' & He' & Hv'). exists e'.
    rewrite list_lookup_insert_ne by done. done.
Qed.

Section offset_pass_facts.

Variable st_size : path → option Z.
Variables (root : string) (zoom : Z) (ho hc : nat).
Hypothesis handles_differ : ho ≠ hc.

(** The pass over the indices [k, k + m): the offsets written are the
    running totals of the sizes the collaborator returned, the counts are
    those sizes, and nothing else about the entries changes. *)
Lemma offset_pass_spec (m : nat) : ∀ k b d b' d' offs cnts,
  holds (TiffBuilder.entries b) ho offs → holds (TiffBuilder.entries b) hc cnts →
  0 ≤ k → k + Z.of_nat m ≤ len offs → k + Z.of_nat m ≤ len cnts →
  offset_pass st_size (seqZ k (Z.of_nat m)) root zoom ho hc b d = Ok (b', d') →
  ∃ szs,
    length szs = m ∧
    (∀ j s, szs !! j = Some s →
            st_size (offset_pass_path root zoom (k + Z.of_nat j)) = Some s) ∧
    holds (TiffBuilder.entries b') ho
      (take (Z.to_nat k) offs ++ running d szs ++ drop (Z.to_nat k + m) offs) ∧
    holds (TiffBuilder.entries b') hc
      (take (Z.to_nat k) cnts ++ szs ++ drop (Z.to_nat k + m) cnts) ∧
    d' = d + sum_Z szs ∧
    shape (TiffBuilder.entries b') = shape (TiffBuilder.entries b) ∧
    TiffBuilder.classical b' = TiffBuilder.classical b.
Proof using handles_differ.
  induction m as [|m IH]; intros k b d b' d' offs cnts Ho Hc Hk Hlo Hlc H.
  - simpl in H. injection H as <- <-. exists []. simpl.
    rewrite Nat.add_0_r, !take_drop. repeat split; try done. lia.
  - rewrite seqZ_cons in H by lia.
    replace (Z.pred (Z.of_nat (S m))) with (Z.of_nat m) in H by lia.
    simpl in H. inv_bind.
    destruct (st_size (offset_pass_path root zoom k)) as [s|] eqn:Hs;
      [|discriminate]. injection E as <-.
    assert (0 ≤ k < len offs) as Hko by lia.
    assert (0 ≤ k < len cnts) as Hkc by lia.
    destruct (entry_setitem_spec _ _ _ _ _ _ Ho Hko E0) as (Ho1 & Hsh1 & Hother1).
    pose proof (Hother1 hc cnts ltac:(done) Hc) as Hc1.
    destruct (entry_setitem_spec _ _ _ _ _ _ Hc1 Hkc E1) as (Hc2 & Hsh2 & Hother2).
    pose proof (Hother2 ho _ handles_differ Ho1) as Ho2.
    apply (IH (Z.succ k) _ _ _ _ (<[Z.to_nat k:=d]> offs) (<[Z.to_nat k:=s]> cnts))
      in H; simpl; try done; try lia;
      try (unfold len in *; rewrite length_insert; lia).
    destruct H as (szs & Hlen & Hst & Ho' & Hc' & -> & Hsh & Hcl).
    exists (s :: szs). simpl.
    assert (Z.to_nat (Z.succ k) = S (Z.to_nat k)) as Hsk by lia.
    rewrite Hsk in Ho', Hc'.
    assert (∀ (l : list Z) x tl,
              (Z.to_nat k < length l)%nat →
              take (S (Z.to_nat k)) (<[Z.to_nat k:=x]> l) ++ tl
                ++ drop (S (Z.to_nat k) + m) (<[Z.to_nat k:=x]> l)
              = take (Z.to_nat k) l ++ (x :: tl) ++ drop (Z.to_nat k + S m) l) as Hfix.
    { intros l x tl Hl.
      rewrite (take_S_r _ _ x) by (apply list_lookup_insert_eq; done).
      rewrite take_insert_ge by lia. rewrite drop_insert_lt by lia.
      rewrite <- app_assoc. simpl.
      replace (S (Z.to_nat k + m)) with (Z.to_nat k + S m)%nat by lia. reflexivity. }
    rewrite Hfix in Ho', Hc' by (unfold len in *; lia).
    repeat split; try done; try lia.
    + intros [|j] s' Hj; simpl in Hj.
      * injection Hj as <-. rewrite Z.add_0_r. done.
      * rewrite <- (Hst j s' Hj). do 2 f_equal. lia.
    + simpl in Hsh. rewrite Hsh, Hsh2, Hsh1. done.
Qed.

End offset_pass_facts.

Lemma main_builder_spec classical zoom tw th :
  ∃ es,
    main_builder classical zoom tw th = (TiffBuilder.mk classical es, 9%nat, 10%nat) ∧
    holds es 9 (replicate (Z.to_nat (total_tile zoom)) 0) ∧
    holds es 10 (replicate (Z.to_nat (total_tile zoom)) 0).
Proof.
  destruct classical; eexists; (split; [reflexivity|]);
    split; eexists; split; reflexivity.
Qed.

Lemma holds_entry_values b h l :
  holds (TiffBuilder.entries b) h l → entry_values b h = l.
Proof. intros (e & He & Hv). unfold entry_values. rewrite He, Hv. reflexivity. Qed.

Lemma total_tile_pos zoom : 0 ≤ zoom → 0 < total_tile zoom.
Proof.
  intros Hz. pose proof (nside_pos zoom Hz).
  unfold total_tile, tile_count_x, tile_count_y. nia.
Qed.

Lemma header_length_shape b b' offset offset' h h' :
  shape (TiffBuilder.entries b') = shape (TiffBuilder.entries b) →
  TiffBuilder.classical b' = TiffBuilder.classical b →
  TiffBuilder.build_header b offset = Ok h →
  TiffBuilder.build_header b' offset' = Ok h' →
  len h = len h'.
Proof.
  intros Hsh Hcl H H'. apply build_header_length in H, H'. rewrite H, H'.
  rewrite (tails_size_shape _ _ Hsh). unfold overflow_base, len.
  rewrite Hcl, (shape_length _ _ Hsh). reflexivity.
Qed.

Section layout_facts.

Variable image_size : path → option (Z * Z).
Variable st_size : path → option Z.

(** What [main] has built when the second header is there: the counts are
    the sizes the collaborator returned, the offsets their running totals
    from the length of the header, and the two headers have one length. *)
Lemma main_layout_spec (root : string) (zoom : Z) (classical : bool) (L : layout) :
  main_layout image_size st_size root zoom classical = Ok L →
  0 ≤ zoom ∧
  ∃ szs,
    len szs = total_tile zoom ∧
    (∀ i c, szs !! i = Some c →
            st_size (offset_pass_path root zoom (Z.of_nat i)) = Some c) ∧
    entry_values (builder L) (offsets L) = running (len (header L)) szs ∧
    entry_values (builder L) (counts L) = szs ∧
    len (first_header L) = len (header L).
Proof.
  unfold main_layout. destruct (Z.ltb_spec zoom 0) as [|Hz]; [discriminate|].
  intros H. split; [done|]. inv_bind. destruct r as [tw th].
  destruct (main_builder_spec classical zoom tw th) as (es & Hmb & Ho & Hc).
  rewrite Hmb in H. inv_bind.
  match goal with
  | E : TiffBuilder.build_header _ _ = Ok ?h |- _ => rename E into Eh0; rename h into h0
  end.
  match goal with
  | E : offset_pass _ _ _ _ _ _ _ _ = Ok ?p |- _ => rename E into Ep; destruct p as [b1 d1]
  end.
  inv_bind.
  match goal with
  | E : TiffBuilder.build_header b1 _ = Ok ?h |- _ => rename E into Eh1; rename h into h1
  end.
  subst L. simpl.
  pose proof (total_tile_pos zoom Hz) as Ht.
  set (m := Z.to_nat (total_tile zoom)) in *.
  assert (total_tile zoom = Z.of_nat m) as Hm by lia.
  rewrite Hm in Ep.
  apply (offset_pass_spec st_size root zoom 9 10 ltac:(lia) m 0
           (TiffBuilder.mk classical es) _ _ _ _ _ Ho Hc)
    in Ep; try (unfold len; rewrite length_replicate; lia); [|lia].
  destruct Ep as (szs & Hlen & Hst & Ho' & Hc' & -> & Hsh & Hcl).
  simpl in Ho', Hc'.
  rewrite (drop_ge (replicate m 0) m) in Ho', Hc' by (rewrite length_replicate; lia).
  rewrite !app_nil_r in Ho', Hc'.
  rewrite (holds_entry_values _ _ _ Ho'), (holds_entry_values _ _ _ Hc').
  pose proof (header_length_shape _ _ _ _ _ _ Hsh Hcl Eh0 Eh1) as Hhl.
  rewrite <- Hhl. exists szs. repeat split; try done.
  unfold len. lia.
Qed.

(** C8: after the offset pass the two arrays have one element per tile,
    the counts are the sizes the collaborator returned, the first offset is
    the length of the header (the one built first and the final one have
    the same length), each offset is the previous one plus the previous
    count, and the last offset plus the last count is the header length
    plus the sum of all counts. *)
Theorem tile_offsets_contiguous (root : string) (zoom : Z) (classical : bool) (L : layout) :
  main_layout image_size st_size root zoom classical = Ok L →
  len (entry_values (builder L) (offsets L)) = total_tile zoom ∧
  len (entry_values (builder L) (counts L)) = total_tile zoom ∧
  (∀ i c, entry_values (builder L) (counts L) !! i = Some c →
          st_size (offset_pass_path root zoom (Z.of_nat i)) = Some c) ∧
  len (first_header L) = len (header L) ∧
  entry_values (builder L) (offsets L) !! 0%nat = Some (len (header L)) ∧
  (∀ i, 0 ≤ i < total_tile zoom - 1 →
        ∃ o c, entry_values (builder L) (offsets L) !! Z.to_nat i = Some o ∧
               entry_values (builder L) (counts L) !! Z.to_nat i = Some c ∧
               entry_values (builder L) (offsets L) !! Z.to_nat (i + 1) = Some (o + c)) ∧
  (∃ o c, entry_values (builder L) (offsets L) !! Z.to_nat (total_tile zoom - 1) = Some o ∧
          entry_values (builder L) (counts L) !! Z.to_nat (total_tile zoom - 1) = Some c ∧
          o + c = len (header L) + sum_Z (entry_values (builder L) (counts L))).
Proof.
  intros H. apply main_layout_spec in H.
  destruct H as (Hz & szs & Hlen & Hst & -> & -> & Hhl).
  pose proof (total_tile_pos zoom Hz) as Ht. unfold len in Hlen.
  assert (∀ i : nat, Z.of_nat i < total_tile zoom →
            ∃ c, szs !! i = Some c ∧
                 running (len (header L)) szs !! i
                 = Some (len (header L) + sum_Z (take i szs))) as Hrun.
  { intros i Hi. destruct (lookup_lt_is_Some_2 szs i ltac:(lia)) as [c Hc0].
    exists c. split; [done|]. eapply running_lookup. done. }
  repeat split; try done.
  - unfold len. rewrite length_running. lia.
  - destruct (Hrun 0%nat ltac:(lia)) as (c & _ & ->). simpl. f_equal. lia.
  - intros i Hi.
    destruct (Hrun (Z.to_nat i) ltac:(lia)) as (c & Hc0 & Hr0).
    destruct (Hrun (Z.to_nat (i + 1)) ltac:(lia)) as (c1 & _ & Hr1).
    exists (len (header L) + sum_Z (take (Z.to_nat i) szs)), c.
    repeat split; try done. rewrite Hr1. f_equal.
    replace (Z.to_nat (i + 1)) with (S (Z.to_nat i)) by lia.
    rewrite (sum_Z_take_S _ _ _ Hc0). lia.
  - destruct (Hrun (Z.to_nat (total_tile zoom - 1)) ltac:(lia)) as (c & Hc0 & Hr0).
    exists (len (header L) + sum_Z (take (Z.to_nat (total_tile zoom - 1)) szs)), c.
    repeat split; try done.
    rewrite <- Z.add_assoc, <- (sum_Z_take_S _ _ _ Hc0).
    rewrite take_ge by lia. reflexivity.
Qed.

Variable read_file : path → option bytes.

(** The collaborators describe one file system: a file that can be read
    has the size [os.stat] reports. *)
Hypothesis stat_of_read : ∀ p s, read_file p = Some s → st_size p = Some (len s).

Lemma write_pass_spec todo : ∀ root zoom tiff out,
  write_pass read_file todo root zoom tiff = Ok out →
  ∃ srcs, out = tiff ++ concat srcs ∧
          Forall2 (λ i s, read_file (write_pass_path root zoom i) = Some s) todo srcs.
Proof using Type.
  induction todo as [|i todo IH]; intros root zoom tiff out H; simpl in H.
  - injection H as <-. exists []. simpl. rewrite app_nil_r. split; [done|constructor].
  - inv_bind. destruct (read_file (write_pass_path root zoom i)) as [s|] eqn:Hs;
      [|discriminate]. injection E as <-.
    apply IH in H as (srcs & -> & HF). exists (s :: srcs). simpl.
    rewrite app_assoc. split; [done|]. constructor; done.
Qed.

(** X20: up to zoom 4, where both passes name the same files, and on a
    file system where a file that can be read has the size [os.stat]
    reports, the file that [main] writes ends where the last offset plus
    the last count says: its size is the header length plus the sum of the
    counts. *)
Lemma output_size_small_zoom (root : string) (zoom : Z) (classical : bool) (out : bytes) :
  zoom ≤ 4 →
  main image_size st_size read_file root zoom classical = Ok out →
  ∃ L, main_layout image_size st_size root zoom classical = Ok L ∧
       len out = len (header L) + sum_Z (entry_values (builder L) (counts L)).
Proof using stat_of_read.
  intros Hz4 H. unfold main in H. inv_bind.
  match goal with E : main_layout _ _ _ _ _ = Ok ?l |- _ =>
    rename E into HL; rename l into L end.
  exists L. split; [done|].
  destruct (main_layout_spec _ _ _ _ HL) as (Hz & szs & Hlen & Hst & _ & -> & _).
  apply write_pass_spec in H as (srcs & -> & HF).
  rewrite len_app. f_equal.
  assert (szs = len <$> srcs) as ->.
  { apply list_eq. intros i. rewrite list_lookup_fmap.
    pose proof (Forall2_length _ _ _ HF) as Hl. rewrite length_seqZ in Hl.
    unfold len in Hlen.
    destruct (srcs !! i) as [s|] eqn:Hs; simpl.
    - pose proof (lookup_lt_Some _ _ _ Hs) as Hi.
      assert (seqZ 0 (total_tile zoom) !! i = Some (Z.of_nat i)) as Hq
        by (rewrite lookup_seqZ; lia).
      pose proof (Forall2_lookup_lr _ _ _ _ _ _ HF Hq Hs) as Hr. simpl in Hr.
      apply stat_of_read in Hr.
      rewrite <- small_zoom_paths in Hr by lia.
      destruct (lookup_lt_is_Some_2 szs i ltac:(lia)) as [c Hc].
      rewrite Hc. pose proof (Hst i c Hc) as Hc'. congruence.
    - apply lookup_ge_None in Hs. apply lookup_ge_None. lia. }
  clear. induction srcs as [|s srcs IH]; [reflexivity|].
  simpl. rewrite len_app, IH. reflexivity.
Qed.

End layout_facts.

Lemma tile_offsets_contiguous_witness :
  ∃ L,
    main_layout (λ _, Some (512, 512)) (λ p, Some (len p + 100)) "hips" 0 true = Ok L ∧
    len (first_header L) = len (header L) ∧
    entry_values (builder L) (offsets L) !! 0%nat = Some (len (header L)).
Proof.
  eexists. split; [vm_compute; reflexivity|].
  pose proof (tile_offsets_contiguous (λ _, Some (512, 512)) (λ p, Some (len p + 100))
                "hips" 0 true _ ltac:(vm_compute; reflexivity))
    as (_ & _ & _ & H1 & H2 & _).
  split; [exact H1|exact H2].
Defined.

(** * Further properties of the address mapper *)

(** X1: spreading the two halves that [deinterleave] extracts gives the
    64-bit index back. *)
Theorem interleave_deinterleave (m : Z) :
  0 ≤ m < 2 ^ 64 →
  interleave (deinterleave m).1 (deinterleave m).2 = m.
Proof. intros Hm. unfold deinterleave. simpl. apply interleave_compress. exact Hm. Qed.

Lemma interleave_deinterleave_witness :
  interleave (deinterleave 0x0123456789abcdef).1 (deinterleave 0x0123456789abcdef).2
  = 0x0123456789abcdef.
Proof. apply interleave_deinterleave. lia. Defined.

Lemma testbit_mask32 j : 0 ≤ j → Z.testbit 0xffffffff j = (j <? 32).
Proof.
  intros Hj. change 0xffffffff with (Z.ones 32).
  rewrite Z.testbit_ones_nonneg by lia. reflexivity.
Qed.

(** X2: [compress_bits] undoes [spread_bits] on the low 32 bits of any
    integer, and [spread_bits] looks at nothing else. *)
Theorem compress_spread (v : Z) :
  compress_bits (spread_bits v) = Z.land v 0xffffffff ∧
  spread_bits (Z.land v 0xffffffff) = spread_bits v.
Proof.
  split; apply Z.bits_inj'; intros j Hj.
  - rewrite compress_bits_spec, spread_bits_even, Z.land_spec, testbit_mask32 by lia.
    zbool; destruct (Z.testbit v j); reflexivity.
  - rewrite !spread_bits_spec, Z.land_spec.
    destruct (Z.ltb_spec j 64); [|zbool; reflexivity].
    rewrite testbit_mask32 by dlia.
    assert (j / 2 < 32) by dlia.
    destruct (Z.ltb_spec (j / 2) 32); [|lia].
    rewrite (andb_true_r (Z.testbit v (j / 2))). reflexivity.
Qed.

(** X3: whatever the argument, negative or wider than the masks,
    [spread_bits] gives a non-negative integer below 2^63 with no odd bit
    set, and [compress_bits] one below 2^32. *)
Theorem mapper_ranges (v : Z) :
  0 ≤ spread_bits v < 2 ^ 63 ∧
  (∀ k, Z.testbit (spread_bits v) (2 * k + 1) = false) ∧
  0 ≤ compress_bits v < 2 ^ 32.
Proof.
  split; [split; [apply spread_bits_nonneg|]|split; [apply spread_bits_odd|]].
  - apply lt_pow2_of_bits; [lia|apply spread_bits_nonneg|].
    intros j Hj. destruct (parity_cases j) as [[k ->]|[k ->]].
    + rewrite spread_bits_even. zbool; reflexivity.
    + apply spread_bits_odd.
  - split; [apply compress_bits_nonneg|].
    apply lt_pow2_of_bits; [lia|apply compress_bits_nonneg|].
    intros j Hj. rewrite compress_bits_spec. zbool; reflexivity.
Qed.

(** * Further properties of the tile locator *)

(** X4: at zoom [z] a face has [2^z] tiles a side and the grid
    [12 * 4^z] tiles. *)
Theorem grid_size (zoom : Z) :
  0 ≤ zoom →
  nside zoom = 2 ^ zoom ∧
  tile_count_x zoom = 4 * 2 ^ zoom ∧ tile_count_y zoom = 3 * 2 ^ zoom ∧
  total_tile zoom = 12 * 4 ^ zoom.
Proof.
  intros Hz. rewrite total_tile_eq, nside2_pow by lia.
  unfold tile_count_x, tile_count_y. rewrite nside_pow.
  repeat split; try lia.
  rewrite Z.pow_mul_r by lia. reflexivity.
Qed.

Lemma grid_size_witness :
  nside 2 = 2 ^ 2 ∧ tile_count_x 2 = 4 * 2 ^ 2 ∧ tile_count_y 2 = 3 * 2 ^ 2 ∧
  total_tile 2 = 12 * 4 ^ 2.
Proof. apply grid_size. lia. Defined.

(** X5: up to zoom 32 the index of a grid cell splits into its face and
    its position in the face: the quotient by [n^2] is the face number
    [(row div n) * 4 + col div n], which is below 12, and [deinterleave]
    of the remainder gives back [(row mod n, col mod n)]. *)
Theorem tile_index_face (zoom i : Z) :
  0 ≤ zoom ≤ 32 → 0 ≤ i < total_tile zoom →
  tile_index zoom i / nside2 zoom
    = i / tile_count_x zoom / nside zoom * 4 + i mod tile_count_x zoom / nside zoom ∧
  0 ≤ tile_index zoom i / nside2 zoom < 12 ∧
  deinterleave (tile_index zoom i mod nside2 zoom)
    = ((i / tile_count_x zoom) mod nside zoom, (i mod tile_count_x zoom) mod nside zoom).
Proof.
  intros Hz Hi.
  destruct (cell_exists zoom i) as (a & c & x & y & Ha & Hc & Hx & Hy & E); [lia|done|].
  assert (0 ≤ c * nside zoom + y < nside zoom * 4) as Hcol by nia.
  assert (i / tile_count_x zoom = a * nside zoom + x ∧
          i mod tile_count_x zoom = c * nside zoom + y) as [Er Ec].
  { rewrite E. unfold cell, tile_count_x. apply div_mod_pack. done. }
  rewrite Er, Ec.
  destruct (div_mod_pack a x (nside zoom) Hx) as [-> ->].
  destruct (div_mod_pack c y (nside zoom) Hy) as [-> ->].
  rewrite E, tile_index_cell by (done || lia).
  pose proof (interleave_nonneg x y).
  pose proof (interleave_lt x y zoom Hz) as Hlt.
  rewrite <- nside_pow, <- nside2_pow in Hlt by lia.
  specialize (Hlt Hx Hy).
  destruct (div_mod_pack (a * 4 + c) (interleave x y) (nside2 zoom) ltac:(lia))
    as [-> ->].
  split; [reflexivity|]. split; [lia|].
  assert (2 ^ zoom ≤ 2 ^ 32) by (apply Z.pow_le_mono_r; lia).
  rewrite nside_pow in Hx, Hy.
  unfold deinterleave.
  rewrite compress_interleave_x, compress_interleave_y by lia. reflexivity.
Qed.

Lemma tile_index_face_witness :
  tile_index 2 77 / nside2 2
    = 77 / tile_count_x 2 / nside 2 * 4 + 77 mod tile_count_x 2 / nside 2 ∧
  0 ≤ tile_index 2 77 / nside2 2 < 12 ∧
  deinterleave (tile_index 2 77 mod nside2 2)
    = ((77 / tile_count_x 2) mod nside 2, (77 mod tile_count_x 2) mod nside 2).
Proof.
  apply tile_index_face; [lia|]. vm_compute. split; [discriminate|reflexivity].
Defined.

Lemma shard_rules_differ_from_zoom_5_witness :
  ∃ i, 0 ≤ i < total_tile 5 ∧ tile_index 5 i = 10000 ∧
       offset_pass_path "hips" 5 i ≠ write_pass_path "hips" 5 i.
Proof. apply shard_rules_differ_from_zoom_5. lia. Defined.

Lemma serialize_signed_inline_witness :
  TiffEntry.serialize (TiffEntry.mk 0x11c SLONG 2 (VList [-1; 7])) 300 false = Ok None.
Proof.
  apply serialize_signed_inline.
  - unfold signed_bucket. simpl. rewrite !elem_of_cons. auto.
  - vm_compute. discriminate.
Defined.

(** * Further properties of the field model *)

(** Every record starts with the tag, the type and the count. *)
Lemma serialize_Ok_pack e offset classical r :
  TiffEntry.serialize e offset classical = Ok (Some r) →
  ∃ fmt args,
    pack (cH :: cH :: (if classical then cI else cQ) :: fmt)
         (VInt (TiffEntry.id e) :: VInt (TiffType_int (TiffEntry.type e))
          :: VInt (TiffEntry.count e) :: args) = Ok r.
Proof.
  destruct e as [i ty n v]. unfold TiffEntry.serialize. simpl.
  destruct classical, ty; simpl; try discriminate;
    destruct (_ <=? _); try discriminate;
    intros H; inv_bind; subst; eexists _, _; eassumption.
Qed.

Lemma le_decode c v :
  code_signed c = false → code_min c ≤ v ≤ code_max c →
  little_endian_to_Z 8 (Z_to_little_endian (code_size c) 8 v) = v.
Proof.
  intros Hs Hv. pose proof (code_size_pos c).
  rewrite little_endian_to_Z_to_little_endian by lia.
  apply Z.mod_small. unfold code_min, code_max in Hv. rewrite Hs in Hv.
  replace (code_size c * 8) with (8 * code_size c) by lia. lia.
Qed.

Lemma slice_0 (c d : bytes) (w : Z) : len c = w → slice 0 w (c ++ d) = c.
Proof. intros H. apply (slice_at [] c d 0 w); [reflexivity|exact H]. Qed.

Lemma slice_end (a c : bytes) (s w : Z) :
  len a = s → len c = w → slice s w (a ++ c) = c.
Proof.
  intros Hs Hw. rewrite <- (app_nil_r c) at 1. apply slice_at; assumption.
Qed.

Lemma len_le (c : code) v : len (Z_to_little_endian (code_size c) 8 v) = code_size c.
Proof.
  unfold len. apply length_Z_to_little_endian; pose proof (code_size_pos c); lia.
Qed.

(** X7: a record that [serialize] returns has the width of its variant
    (12 or 20 bytes) and begins with the tag in 2 bytes, the type number in
    2 bytes and the declared count in 4 (8) bytes, little-endian; the tag
    and the count are within those widths. *)
Theorem serialize_record_fields (e : TiffEntry.t) (offset : Z) (classical : bool) (r : bytes) :
  TiffEntry.serialize e offset classical = Ok (Some r) →
  len r = record_width classical ∧
  little_endian_to_Z 8 (slice 0 2 r) = TiffEntry.id e ∧
  little_endian_to_Z 8 (slice 2 2 r) = TiffType_int (TiffEntry.type e) ∧
  little_endian_to_Z 8 (slice 4 (slot_start classical - 4) r) = TiffEntry.count e ∧
  0 ≤ TiffEntry.id e < 2 ^ 16 ∧
  0 ≤ TiffEntry.count e < 2 ^ (8 * (slot_start classical - 4)).
Proof.
  intros H. split; [eapply serialize_length; eassumption|].
  apply serialize_Ok_pack in H as (fmt & args & H).
  set (cc := if classical then cI else cQ) in *.
  assert (code_size cc = slot_start classical - 4 ∧ code_signed cc = false) as [Hcc Hcs]
    by (destruct classical; split; reflexivity).
  apply pack_cons_Ok in H as (b1 & r1 & E1 & H & ->).
  apply pack_cons_Ok in H as (b2 & r2 & E2 & H & ->).
  apply pack_cons_Ok in H as (b3 & r3 & E3 & H & ->).
  simpl in E1, E2, E3.
  apply pack_int_Ok in E1 as [-> R1], E2 as [-> R2], E3 as [-> R3].
  rewrite slice_0 by apply (len_le cH).
  rewrite (slice_at _ _ _ 2 2) by apply (len_le cH).
  rewrite <- Hcc.
  rewrite (slice_middle _ _ _ _ 4 (code_size cc))
    by (rewrite ?len_app, ?(len_le cH); reflexivity || apply len_le).
  rewrite !le_decode by done.
  repeat split; try done; unfold code_min, code_max in *;
    rewrite ?Hcs in *; simpl in *; lia.
Qed.

Lemma serialize_record_fields_witness :
  ∃ r,
    TiffEntry.serialize (TiffEntry.mk 0x100 LONG 1 (VInt 2048)) 0 false = Ok (Some r) ∧
    len r = 20 ∧
    little_endian_to_Z 8 (slice 0 2 r) = 0x100 ∧
    little_endian_to_Z 8 (slice 2 2 r) = 4 ∧
    little_endian_to_Z 8 (slice 4 8 r) = 1.
Proof.
  eexists. split; [vm_compute; reflexivity|].
  pose proof (serialize_record_fields (TiffEntry.mk 0x100 LONG 1 (VInt 2048)) 0 false _
                ltac:(vm_compute; reflexivity)) as (H1 & H2 & H3 & H4 & _).
  repeat split; assumption.
Defined.

(** X8: the record of an entry that fits inline does not depend on the
    offset passed to [serialize]. *)
Theorem serialize_inline_ignores_offset (e : TiffEntry.t) (o1 o2 : Z) (classical : bool) :
  payload_size e ≤ inline_threshold classical →
  TiffEntry.serialize e o1 classical = TiffEntry.serialize e o2 classical.
Proof.
  destruct e as [i ty n v]. unfold payload_size, TiffEntry.serialize. simpl.
  intros Hsz.
  destruct classical, ty; simpl in *; try reflexivity;
    match goal with |- context [?a <=? ?b] => destruct (Z.leb_spec a b) end;
    (reflexivity || lia).
Qed.

Lemma serialize_inline_ignores_offset_witness :
  TiffEntry.serialize (TiffEntry.mk 0x102 SHORT 3 (VList [8; 8; 8])) 0 false
  = TiffEntry.serialize (TiffEntry.mk 0x102 SHORT 3 (VList [8; 8; 8])) 5000 false.
Proof. apply serialize_inline_ignores_offset. vm_compute. discriminate. Defined.

Lemma serialize_clamp e offset classical :
  TiffEntry.serialize e offset classical
  = TiffEntry.serialize e (Z.max 0 offset) classical.
Proof.
  unfold TiffEntry.serialize.
  replace (if Z.max 0 offset <? 0 then 0 else Z.max 0 offset)
    with (if offset <? 0 then 0 else offset); [reflexivity|].
  destruct (Z.ltb_spec offset 0), (Z.ltb_spec (Z.max 0 offset) 0); lia.
Qed.

(** X10: the record of an entry above the variant's threshold holds in its
    value slot the offset it was given, and 0 when that offset is
    negative. *)
Theorem serialize_overflow_slot (e : TiffEntry.t) (offset : Z) (classical : bool) (r : bytes) :
  inline_threshold classical < payload_size e →
  TiffEntry.serialize e offset classical = Ok (Some r) →
  little_endian_to_Z 8 (slice (slot_start classical) (slot_width classical) r)
  = Z.max 0 offset.
Proof.
  intros Hsz H. rewrite serialize_clamp in H.
  destruct (serialize_overflow e (Z.max 0 offset) classical r Hsz ltac:(lia) H)
    as (hd & -> & Hhd & Hr).
  rewrite (slice_end hd _ _ _ Hhd).
  - rewrite little_endian_to_Z_to_little_endian by (destruct classical; simpl; lia).
    apply Z.mod_small.
    replace (slot_width classical * 8) with (8 * slot_width classical) by lia. done.
  - apply length_Z_to_little_endian; destruct classical; simpl; lia.
Qed.

Lemma serialize_overflow_slot_witness :
  ∃ r,
    TiffEntry.serialize (TiffEntry.mk 0x144 LONG 12 (VList (replicate 12 0))) (-1) true
      = Ok (Some r) ∧
    little_endian_to_Z 8 (slice 8 4 r) = Z.max 0 (-1).
Proof.
  eexists. split; [vm_compute; reflexivity|].
  apply (serialize_overflow_slot
           (TiffEntry.mk 0x144 LONG 12 (VList (replicate 12 0))) (-1) true);
    [vm_compute; reflexivity|vm_compute; reflexivity].
Defined.

Lemma le_words_cons w x l : le_words w (x :: l) = Z_to_little_endian w 8 x ++ le_words w l.
Proof. reflexivity. Qed.

(** Packing a run of integers with one format character. *)
Lemma pack_words c : ∀ n l x,
  pack (replicate n c) (VInt <$> l) = Ok x →
  x = le_words (code_size c) l ∧ length l = n ∧
  Forall (λ v, code_min c ≤ v ≤ code_max c) l.
Proof.
  induction n as [|n IH]; intros [|v l] x H; simpl replicate in H; try discriminate.
  - injection H as <-. repeat split. constructor.
  - rewrite fmap_cons in H. apply pack_cons_Ok in H as (b & bs & E & H & ->).
    simpl in E. apply pack_int_Ok in E as [-> Hv].
    apply IH in H as (-> & <- & HF). repeat split. constructor; done.
Qed.

Lemma take_pad_single (x : Z) (k : nat) : take 1 ([x] ++ replicate k 0) = [x].
Proof. reflexivity. Qed.

Lemma len_le_words w l : 0 ≤ w → len (le_words w l) = len l * w.
Proof.
  intros Hw. unfold le_words. rewrite (len_concat_uniform w).
  - unfold len. rewrite length_fmap. reflexivity.
  - apply Forall_fmap, Forall_true. intros x. simpl. unfold len.
    apply length_Z_to_little_endian; lia.
Qed.

(** A record whose value slot is packed from a run of integers. *)
Lemma inline_slot c c3 k x y z l r :
  pack (cH :: cH :: c3 :: replicate k c) (VInt x :: VInt y :: VInt z :: (VInt <$> l)) = Ok r →
  slice (4 + code_size c3) (Z.of_nat k * code_size c) r = le_words (code_size c) l.
Proof.
  intros H.
  apply pack_cons_Ok in H as (b1 & r1 & E1 & H & ->).
  apply pack_cons_Ok in H as (b2 & r2 & E2 & H & ->).
  apply pack_cons_Ok in H as (b3 & r3 & E3 & H & ->).
  simpl in E1, E2, E3.
  apply pack_int_Ok in E1 as [-> _], E2 as [-> _], E3 as [-> _].
  apply pack_words in H as (-> & Hl & _).
  pose proof (code_size_pos c).
  rewrite !app_assoc. apply slice_end.
  - rewrite !len_app, !len_le. reflexivity.
  - rewrite len_le_words by lia. unfold len. rewrite Hl. reflexivity.
Qed.

(** X11: for an entry of an unsigned type that fits inline, the value slot
    of the record holds the payload itself: the elements (a scalar counts
    as a list of one), followed by zeros and cut to as many elements as
    fill the slot, each in the little-endian bytes of its type. *)
Theorem serialize_inline_payload (e : TiffEntry.t) (offset : Z) (classical : bool) (r : bytes) :
  TiffEntry.type e ∈ unsigned_bucket →
  payload_size e ≤ inline_threshold classical →
  TiffEntry.serialize e offset classical = Ok (Some r) →
  slice (slot_start classical) (slot_width classical) r
  = le_words (TIFF_BYTES (TiffEntry.type e))
      (take (slot_items classical (TiffEntry.type e))
         (TiffEntry.as_list (TiffEntry.value e)
          ++ replicate (slot_items classical (TiffEntry.type e)) 0)).
Proof.
  intros Hty Hsz H.
  destruct e as [i ty n v]. unfold payload_size, TiffEntry.serialize in *.
  simpl in *. unfold unsigned_bucket in Hty.
  rewrite !elem_of_cons, elem_of_nil in Hty.
  destruct Hty as [->|[->|[->|[]]]]; destruct classical; simpl in *;
    match goal with H : context [?a <=? ?b] |- _ =>
      destruct (Z.leb_spec a b); [|lia] end;
    inv_bind; subst.
  - exact (inline_slot cB cI 4 _ _ _ _ _ E).
  - exact (inline_slot cB cQ 8 _ _ _ _ _ E).
  - exact (inline_slot cH cI 2 _ _ _ _ _ E).
  - exact (inline_slot cH cQ 4 _ _ _ _ _ E).
  - destruct v as [x|l].
    + exact (inline_slot cI cI 1 _ _ _ [x] _ E).
    + do 3 (apply pack_cons_Ok in E as (? & ? & _ & E & _)).
      apply pack_cons_Ok in E as (? & ? & E & _). discriminate E.
  - exact (inline_slot cI cQ 2 _ _ _ _ _ E).
Qed.

Lemma serialize_inline_payload_witness :
  ∃ r,
    TiffEntry.serialize (TiffEntry.mk 0x102 SHORT 3 (VList [8; 8; 8])) 0 false
      = Ok (Some r) ∧
    slice 12 8 r = le_words 2 [8; 8; 8; 0].
Proof.
  eexists. split; [vm_compute; reflexivity|].
  apply (serialize_inline_payload
           (TiffEntry.mk 0x102 SHORT 3 (VList [8; 8; 8])) 0 false).
  - unfold unsigned_bucket. simpl. rewrite !elem_of_cons. auto.
  - vm_compute. discriminate.
  - vm_compute. reflexivity.
Defined.

(** X12: for an entry of type [LONG] that fits the classical slot, a
    payload given as a list, even of one element, is a [struct.error]:
    the classical branch passes the value to [struct.pack] as it is. *)
Theorem serialize_classical_long_list (e : TiffEntry.t) (offset : Z) (l : list Z) :
  TiffEntry.type e = LONG → payload_size e ≤ 4 → TiffEntry.value e = VList l →
  TiffEntry.serialize e offset true = Raise StructError.
Proof.
  destruct e as [i ty n v]. unfold payload_size, TiffEntry.serialize. simpl.
  intros -> Hsz ->. simpl in *.
  destruct (Z.leb_spec (n * 4) 4); [|lia].
  destruct (pack [cH; cH; cI; cI] [VInt i; VInt 4; VInt n; VList l]) as [r|x] eqn:E.
  - do 3 (apply pack_cons_Ok in E as (? & ? & _ & E & _)).
    apply pack_cons_Ok in E as (? & ? & E & _). discriminate E.
  - apply pack_raises in E as ->. reflexivity.
Qed.

Lemma serialize_classical_long_list_witness :
  TiffEntry.serialize (TiffEntry.mk 0x100 LONG 1 (VList [2048])) 0 true = Raise StructError.
Proof.
  apply (serialize_classical_long_list _ 0 [2048]); [reflexivity| |reflexivity].
  vm_compute. discriminate.
Defined.

(** * Further properties of the tails *)

Lemma tail_cases (e : TiffEntry.t) (tl : bytes) :
  TiffEntry.has_tail e = true → TiffEntry.tail e = Ok tl →
  TiffEntry.type e ∈ unsigned_bucket ∧ 1 < TiffEntry.count e ∧
  ∃ l, TiffEntry.value e = VList l ∧ len l = TiffEntry.count e ∧
       Forall (λ x, 0 ≤ x < 2 ^ (8 * TIFF_BYTES (TiffEntry.type e))) l ∧
       tl = le_words (TIFF_BYTES (TiffEntry.type e)) l.
Proof.
  intros Ht H.
  destruct (Z.ltb_spec 1 (TiffEntry.count e)) as [Hc|Hc].
  2:{ rewrite (tail_scalar_branch e Ht Hc) in H. discriminate H. }
  unfold TiffEntry.tail in H. rewrite Ht in H. simpl in H.
  destruct (Z.ltb_spec 1 (TiffEntry.count e)); [|lia].
  split; [|split; [done|]].
  - unfold unsigned_bucket. rewrite !elem_of_cons.
    destruct (TiffEntry.type e); try discriminate; auto.
  - destruct (TiffEntry.type e) eqn:Ety; try discriminate;
      inv_bind; destruct (TiffEntry.value e) as [x|l]; try discriminate;
      simpl in E; injection E as <-;
      apply pack_words in H as (-> & Hl & HF);
      exists l; (split; [reflexivity|]); (split; [unfold len; lia|]);
      (split; [|reflexivity]);
      (eapply Forall_impl; [exact HF|]); intros x Hx;
      unfold code_min, code_max in Hx; simpl in *; lia.
Qed.

(** X13: when the payload is above 4 bytes [tail] returns only for an
    entry of type [BYTE], [SHORT] or [LONG] with more than one element
    whose value is a list of exactly [count] integers, each within the
    range of the type; the bytes are then the elements in order, each in
    the little-endian bytes of the type, with nothing between them. *)
Theorem tail_bytes (e : TiffEntry.t) (tl : bytes) :
  TiffEntry.has_tail e = true → TiffEntry.tail e = Ok tl →
  TiffEntry.type e ∈ unsigned_bucket ∧ 1 < TiffEntry.count e ∧
  ∃ l, TiffEntry.value e = VList l ∧ len l = TiffEntry.count e ∧
       Forall (λ x, 0 ≤ x < 2 ^ (8 * TIFF_BYTES (TiffEntry.type e))) l ∧
       tl = le_words (TIFF_BYTES (TiffEntry.type e)) l.
Proof. apply tail_cases. Qed.

Lemma tail_bytes_witness :
  TiffEntry.type (TiffEntry.mk 0x144 LONG 3 (VList [260; 1260; 2260])) ∈ unsigned_bucket ∧
  1 < 3 ∧
  ∃ l, VList [260; 1260; 2260] = VList l ∧ len l = 3 ∧
       Forall (λ x, 0 ≤ x < 2 ^ (8 * 4)) l ∧
       [4; 1; 0; 0; 236; 4; 0; 0; 212; 8; 0; 0] = le_words 4 l.
Proof.
  apply (tail_bytes (TiffEntry.mk 0x144 LONG 3 (VList [260; 1260; 2260])));
    vm_compute; reflexivity.
Defined.

Lemma le_words_slice w l i x :
  0 < w → l !! i = Some x →
  slice (w * Z.of_nat i) w (le_words w l) = Z_to_little_endian w 8 x.
Proof.
  intros Hw Hi. unfold le_words.
  assert ((Z_to_little_endian w 8 <$> l) !! i = Some (Z_to_little_endian w 8 x)) as Hi'
    by (rewrite list_lookup_fmap, Hi; reflexivity).
  rewrite (concat_middle _ i _ Hi'). apply slice_at.
  - rewrite (len_concat_uniform w).
    + unfold len. rewrite length_take_le; [lia|].
      apply lookup_lt_Some in Hi'. lia.
    + apply Forall_take. apply Forall_fmap, Forall_true. intros y. simpl. unfold len.
      apply length_Z_to_little_endian; lia.
  - unfold len. apply length_Z_to_little_endian; lia.
Qed.

(** X14: the tail can be read back: element [i] of the payload is the
    little-endian integer in the bytes of the tail from [width * i] on. *)
Theorem tail_element (e : TiffEntry.t) (tl : bytes) (l : list Z) (i : nat) (x : Z) :
  TiffEntry.has_tail e = true → TiffEntry.tail e = Ok tl →
  TiffEntry.value e = VList l → l !! i = Some x →
  little_endian_to_Z 8
    (slice (TIFF_BYTES (TiffEntry.type e) * Z.of_nat i) (TIFF_BYTES (TiffEntry.type e)) tl)
  = x.
Proof.
  intros Ht H Hv Hi.
  destruct (tail_cases e tl Ht H) as (_ & _ & l' & Hv' & _ & HF & ->).
  rewrite Hv in Hv'. injection Hv' as <-.
  pose proof (TIFF_BYTES_pos (TiffEntry.type e)).
  rewrite (le_words_slice _ l i x) by done.
  rewrite little_endian_to_Z_to_little_endian by lia.
  apply Z.mod_small. rewrite Forall_lookup in HF. specialize (HF i x Hi).
  replace (TIFF_BYTES (TiffEntry.type e) * 8) with (8 * TIFF_BYTES (TiffEntry.type e))
    by lia. done.
Qed.

Lemma tail_element_witness :
  little_endian_to_Z 8 (slice (4 * Z.of_nat 1) 4 [4; 1; 0; 0; 236; 4; 0; 0; 212; 8; 0; 0])
  = 1260.
Proof.
  apply (tail_element (TiffEntry.mk 0x144 LONG 3 (VList [260; 1260; 2260])) _
           [260; 1260; 2260] 1 1260); vm_compute; reflexivity.
Defined.

(** * Further properties of the container builder *)

(** A built header has a record and a tail for each of its entries. *)
Lemma build_header_entries b offset h k e :
  TiffBuilder.build_header b offset = Ok h →
  TiffBuilder.entries b !! k = Some e →
  ∃ o r tl, TiffEntry.serialize e o (TiffBuilder.classical b) = Ok (Some r) ∧
            TiffEntry.tail e = Ok tl.
Proof.
  intros H He. apply build_header_Ok in H.
  assert (∃ o p, TiffBuilder.build_header_pass b o = Ok (h, p)) as (o & p & Hp).
  { destruct (offset <? 0); [destruct H as (h1 & _ & H)|]; eauto. }
  pose proof (build_header_pass_spec _ _ _ _ Hp)
    as (pre & recs & tls & _ & _ & _ & _ & Ht & _ & Hk).
  destruct (Hk k e He) as (r & _ & Hs).
  destruct (Forall2_lookup_l _ _ _ _ _ Ht He) as (tl & _ & Htl).
  eauto.
Qed.

Lemma serialize_tail_unsigned e o classical r tl :
  TiffEntry.serialize e o classical = Ok (Some r) → TiffEntry.tail e = Ok tl →
  TiffEntry.type e ∈ unsigned_bucket.
Proof.
  intros Hs Ht. destruct (TiffEntry.has_tail e) eqn:Hh.
  { apply (tail_cases e tl Hh Ht). }
  assert (payload_size e ≤ inline_threshold classical) as Hsz.
  { unfold TiffEntry.has_tail in Hh. apply Z.ltb_ge in Hh.
    unfold payload_size. destruct classical; simpl; lia. }
  destruct (decide (TiffEntry.type e ∈ signed_bucket)) as [Hsg|Hsg].
  { rewrite (signed_inline_falls_through e o classical Hsg Hsz) in Hs. discriminate Hs. }
  unfold unsigned_bucket, signed_bucket in *. rewrite !elem_of_cons in *.
  destruct e as [i ty n v]. unfold TiffEntry.serialize in Hs. simpl in *.
  destruct ty; auto; try (exfalso; apply Hsg; auto; fail);
    destruct classical; discriminate Hs.
Qed.

(** X15: [build_header] returns a header only when every entry is of type
    [BYTE], [SHORT] or [LONG]: any other type stops it with an exception,
    in [serialize], in [tail] or on appending [None]. *)
Theorem build_header_only_unsigned (b : TiffBuilder.t) (offset : Z) (h : bytes) :
  TiffBuilder.build_header b offset = Ok h →
  Forall (λ e, TiffEntry.type e ∈ unsigned_bucket) (TiffBuilder.entries b).
Proof.
  intros H. apply Forall_lookup. intros k e He.
  destruct (build_header_entries b offset h k e H He) as (o & r & tl & Hs & Ht).
  eapply serialize_tail_unsigned; eassumption.
Qed.

Lemma build_header_only_unsigned_witness :
  Forall (λ e, TiffEntry.type e ∈ unsigned_bucket)
    [TiffEntry.mk 0x100 SHORT 1 (VInt 512); TiffEntry.mk 0x144 LONG 3 (VList [1; 2; 3])].
Proof.
  eapply (build_header_only_unsigned
            (TiffBuilder.mk true
               [TiffEntry.mk 0x100 SHORT 1 (VInt 512);
                TiffEntry.mk 0x144 LONG 3 (VList [1; 2; 3])]) (-1)).
  vm_compute. reflexivity.
Defined.

(** One pass, with the bytes before the table written out. *)
Lemma build_header_pass_start b offset h hpo :
  TiffBuilder.build_header_pass b offset = Ok (h, hpo) →
  (∃ recs tls,
     h = ((header_start b ++ concat recs)
          ++ replicate (Z.to_nat (slot_width (TiffBuilder.classical b))) 0)
         ++ concat tls ∧
     length recs = length (TiffBuilder.entries b) ∧
     Forall (λ r, len r = record_width (TiffBuilder.classical b)) recs) ∧
  0 ≤ len (TiffBuilder.entries b)
    < 2 ^ (if TiffBuilder.classical b then 16 else 64).
Proof.
  unfold TiffBuilder.build_header_pass, header_start. intros H. inv_bind.
  match goal with
  | E : TiffBuilder.serialize_entries _ _ _ _ _ = Ok ?p |- _ =>
      destruct p as [hdr htb]; rename E into Es
  end.
  inv_bind. subst h hpo.
  apply serialize_entries_spec in Es as (recs & tls & -> & _ & Ht & Hl & Hw & _).
  match goal with
  | E : TiffBuilder.append_tails _ _ = Ok _ |- _ =>
      apply append_tails_spec in E as (tls' & Ht' & ->)
  end.
  revert E. destruct (TiffBuilder.classical b); intros E; inv_bind; subst;
    repeat match goal with
    | E : pack [_] [_] = Ok _ |- _ =>
        apply pack_cons_Ok in E; destruct E as (? & ? & E & E' & ->);
        injection E' as <-; simpl in E; apply pack_int_Ok in E; destruct E as [-> ?]
    end;
    rewrite ?app_nil_r; (split; [eexists _, _; split; [reflexivity|done]|]);
    unfold code_min, code_max in *; simpl in *; lia.
Qed.

Lemma len_header_start b : len (header_start b) = table_start (TiffBuilder.classical b).
Proof.
  unfold header_start, len. destruct (TiffBuilder.classical b);
    rewrite !length_app; simpl length;
    pose proof (length_Z_to_little_endian 2 8 (len (TiffBuilder.entries b)) ltac:(lia));
    pose proof (length_Z_to_little_endian 8 8 (len (TiffBuilder.entries b)) ltac:(lia));
    pose proof (length_Z_to_little_endian 8 8 16 ltac:(lia));
    unfold len in *; simpl; lia.
Qed.

(** X16: a built header begins with the byte-order mark [II], the version
    (42 classical, 43 for the 64-bit variant) and the constant 8; the
    number of entries follows, in 2 bytes when classical (so there are
    fewer than 65536 entries) and in 8 bytes after the 8-byte constant 16
    otherwise; the 4 (8) bytes after the entry table are zero. *)
Theorem build_header_frame (b : TiffBuilder.t) (offset : Z) (h : bytes) :
  TiffBuilder.build_header b offset = Ok h →
  take 8 h = [73; 73; if TiffBuilder.classical b then 42 else 43; 0; 8; 0; 0; 0] ∧
  (if TiffBuilder.classical b
   then little_endian_to_Z 8 (slice 8 2 h) = len (TiffBuilder.entries b) ∧
        len (TiffBuilder.entries b) < 2 ^ 16
   else little_endian_to_Z 8 (slice 8 8 h) = 16 ∧
        little_endian_to_Z 8 (slice 16 8 h) = len (TiffBuilder.entries b)) ∧
  slice (overflow_base b - slot_width (TiffBuilder.classical b))
        (slot_width (TiffBuilder.classical b)) h
  = replicate (Z.to_nat (slot_width (TiffBuilder.classical b))) 0.
Proof.
  intros H. apply build_header_Ok in H.
  assert (∃ o p, TiffBuilder.build_header_pass b o = Ok (h, p)) as (o & p & Hp).
  { destruct (offset <? 0); [destruct H as (h1 & _ & H)|]; eauto. }
  apply build_header_pass_start in Hp as ((recs & tls & -> & Hl & Hw) & Hn).
  pose proof (len_concat_uniform _ _ Hw) as Hc.
  assert (len recs = len (TiffBuilder.entries b)) as Hl' by (unfold len; lia).
  pose proof (len_header_start b) as Hs.
  split; [|split].
  - unfold header_start. destruct (TiffBuilder.classical b); reflexivity.
  - unfold header_start in *. destruct (TiffBuilder.classical b).
    + split; [|lia]. rewrite <- !app_assoc.
      rewrite (slice_at [73; 73; 42; 0; 8; 0; 0; 0] _ _ 8 2)
        by (reflexivity || (apply length_Z_to_little_endian; lia)).
      rewrite little_endian_to_Z_to_little_endian by lia. apply Z.mod_small. lia.
    + split.
      * rewrite <- !app_assoc.
        rewrite (slice_at [73; 73; 43; 0; 8; 0; 0; 0] _ _ 8 8)
          by (reflexivity || (apply length_Z_to_little_endian; lia)).
        reflexivity.
      * rewrite <- !app_assoc.
        rewrite (app_assoc [73; 73; 43; 0; 8; 0; 0; 0]).
        rewrite (slice_at _ _ _ 16 8)
          by (reflexivity || (apply length_Z_to_little_endian; lia)).
        rewrite little_endian_to_Z_to_little_endian by lia. apply Z.mod_small. lia.
  - rewrite <- (app_assoc (_ ++ _) (replicate _ _)).
    apply slice_at.
    + rewrite len_app, Hc, Hl', Hs. unfold overflow_base. lia.
    + unfold len. rewrite length_replicate.
      destruct (TiffBuilder.classical b); reflexivity.
Qed.

Lemma build_header_frame_witness :
  ∃ h,
    TiffBuilder.build_header
      (TiffBuilder.mk false [TiffEntry.mk 0x100 LONG 1 (VInt 2048)]) (-1) = Ok h ∧
    take 8 h = [73; 73; 43; 0; 8; 0; 0; 0] ∧
    (little_endian_to_Z 8 (slice 8 8 h) = 16 ∧ little_endian_to_Z 8 (slice 16 8 h) = 1) ∧
    slice (52 - 8) 8 h = replicate 8 0.
Proof.
  eexists. split; [vm_compute; reflexivity|].
  apply (build_header_frame
           (TiffBuilder.mk false [TiffEntry.mk 0x100 LONG 1 (VInt 2048)]) (-1)).
  vm_compute. reflexivity.
Defined.

(** X17: the length of a built header is the bytes before the table (10
    classical, 24 otherwise), one record of 12 (20) bytes per entry, the
    terminator of 4 (8) bytes, and [count * width] bytes for each entry
    whose payload is above 4 bytes. *)
Theorem build_header_size (b : TiffBuilder.t) (offset : Z) (h : bytes) :
  TiffBuilder.build_header b offset = Ok h →
  len h
  = table_start (TiffBuilder.classical b)
    + len (TiffBuilder.entries b) * record_width (TiffBuilder.classical b)
    + slot_width (TiffBuilder.classical b)
    + sum_Z ((λ e, if 4 <? payload_size e then payload_size e else 0)
               <$> TiffBuilder.entries b).
Proof.
  intros H. rewrite (build_header_length _ _ _ H). unfold overflow_base. f_equal.
  induction (TiffBuilder.entries b) as [|e es IH]; [reflexivity|].
  simpl. rewrite IH. reflexivity.
Qed.

Lemma build_header_size_witness :
  ∃ h,
    TiffBuilder.build_header
      (TiffBuilder.mk true
         [TiffEntry.mk 0x102 SHORT 3 (VList [8; 8; 8]);
          TiffEntry.mk 0x103 SHORT 1 (VInt 7)]) (-1) = Ok h ∧
    len h = 10 + 2 * 12 + 4 + sum_Z [6; 0].
Proof.
  eexists. split; [vm_compute; reflexivity|].
  apply (build_header_size
           (TiffBuilder.mk true
              [TiffEntry.mk 0x102 SHORT 3 (VList [8; 8; 8]);
               TiffEntry.mk 0x103 SHORT 1 (VInt 7)]) (-1)).
  vm_compute. reflexivity.
Defined.


Lemma output_size_small_zoom_witness :
  ∃ out,
    main (λ _, Some (256, 256)) (λ _, Some 3) (λ _, Some [255; 216; 255]) "hips" 0 true
      = Ok out ∧
    ∃ L,
      main_layout (λ _, Some (256, 256)) (λ _, Some 3) "hips" 0 true = Ok L ∧
      len out = len (header L) + sum_Z (entry_values (builder L) (counts L)).
Proof.
  eexists. split; [vm_compute; reflexivity|].
  apply (output_size_small_zoom (λ _, Some (256, 256)) (λ _, Some 3)
           (λ _, Some [255; 216; 255])).
  - intros p s [= <-]. reflexivity.
  - lia.
  - vm_compute. reflexivity.
Defined.

(** * Further properties of the assembler *)

Lemma sum_Z_nonneg l : Forall (λ x, 0 ≤ x) l → 0 ≤ sum_Z l.
Proof. induction 1; simpl; lia. Qed.

Lemma sum_Z_len_concat (ls : list bytes) : sum_Z (len <$> ls) = len (concat ls).
Proof.
  induction ls as [|l ls IH]; [reflexivity|].
  rewrite fmap_cons. simpl sum_Z. simpl concat. rewrite len_app, IH. reflexivity.
Qed.

Lemma main_builder_handles classical zoom tw th :
  ∃ es,
    main_builder classical zoom tw th = (TiffBuilder.mk classical es, 9%nat, 10%nat) ∧
    es !! 9%nat = Some (TiffEntry.mk TiffTag.TileOffsets LONG (total_tile zoom)
                          (VList (replicate (Z.to_nat (total_tile zoom)) 0))) ∧
    es !! 10%nat = Some (TiffEntry.mk TiffTag.TileByteCounts LONG (total_tile zoom)
                           (VList (replicate (Z.to_nat (total_tile zoom)) 0))).
Proof. destruct classical; eexists; repeat split. Qed.

Lemma shape_lookup es es' k e :
  shape es' = shape es → es !! k = Some e →
  ∃ e', es' !! k = Some e' ∧ TiffEntry.type e' = TiffEntry.type e ∧
        TiffEntry.count e' = TiffEntry.count e.
Proof.
  intros Hsh He.
  assert (shape es' !! k = Some (TiffEntry.type e, TiffEntry.count e)) as H.
  { rewrite Hsh. unfold shape. rewrite list_lookup_fmap, He. reflexivity. }
  unfold shape in H. rewrite list_lookup_fmap in H.
  destruct (es' !! k) as [e'|]; [|discriminate]. simpl in H. injection H as Ht Hc.
  eauto.
Qed.

(** The statement of the overflow layout, for use below. *)
Lemma overflow_slot_layout (b : TiffBuilder.t) (h : bytes) (k : nat) (e : TiffEntry.t) :
  TiffBuilder.build_header b (-1) = Ok h →
  TiffBuilder.entries b !! k = Some e →
  inline_threshold (TiffBuilder.classical b) < payload_size e →
  ∃ tl, TiffEntry.tail e = Ok tl ∧
        slice (stored_offset (TiffBuilder.classical b) h k) (len tl) h = tl.
Proof.
  intros Hb He Hsz.
  apply build_header_Ok in Hb. simpl in Hb. destruct Hb as (h1 & _ & Hp).
  pose proof (build_header_pass_spec _ _ _ _ Hp)
    as (pre & recs & tls & -> & Hpre & Hl & Hw & Ht & _ & Hk).
  destruct (Hk k e He) as (r & Hr & Hs).
  destruct (Forall2_lookup_l _ _ _ _ _ Ht He) as (tl & Htl & Htail).
  set (c := TiffBuilder.classical b) in *.
  set (fixed := pre ++ concat recs ++ replicate (Z.to_nat (slot_width c)) 0).
  assert (len fixed = overflow_base b) as Hfixed.
  { unfold fixed. rewrite !len_app, (len_concat_uniform _ _ Hw), Hpre.
    unfold overflow_base, len. fold c. rewrite Hl, length_replicate.
    destruct c; simpl; lia. }
  set (off := overflow_base b + len (concat (take k tls))) in *.
  assert (0 ≤ off) as Hoff.
  { unfold off. pose proof (overflow_base_nonneg b).
    pose proof (len_nonneg (concat (take k tls))). lia. }
  destruct (serialize_overflow e off c r Hsz Hoff Hs) as (hd & -> & Hhd & Hrange).
  assert (stored_offset c (fixed ++ concat tls) k = off) as Hstored.
  { unfold stored_offset, fixed.
    rewrite (concat_middle recs k _ Hr), <- !app_assoc.
    rewrite (app_assoc pre), (app_assoc (pre ++ _)).
    rewrite slice_at.
    - rewrite little_endian_to_Z_to_little_endian by (destruct c; simpl; lia).
      apply Z.mod_small. replace (slot_width c * 8) with (8 * slot_width c) by lia.
      done.
    - rewrite !len_app, Hpre.
      rewrite (len_concat_uniform (record_width c)) by (apply Forall_take; done).
      unfold len in *. rewrite length_take_le; [lia|].
      apply lookup_lt_Some in Hr. lia.
    - apply length_Z_to_little_endian; destruct c; simpl; lia. }
  exists tl. split; [exact Htail|].
  fold fixed. rewrite Hstored. rewrite (concat_middle tls k tl Htl), app_assoc.
  apply slice_at; [|reflexivity].
  rewrite len_app, Hfixed. reflexivity.
Qed.

Section assembler_facts.

Variable image_size : path → option (Z * Z).
Variable st_size : path → option Z.
Variable read_file : path → option bytes.

(** [main]: the layout, then the header followed by what was read for
    each grid cell, in grid order. *)
Lemma main_spec (root : string) (zoom : Z) (classical : bool) (out : bytes) :
  main image_size st_size read_file root zoom classical = Ok out →
  ∃ L srcs,
    main_layout image_size st_size root zoom classical = Ok L ∧
    out = header L ++ concat srcs ∧
    Forall2 (λ i s, read_file (write_pass_path root zoom i) = Some s)
      (seqZ 0 (total_tile zoom)) srcs.
Proof.
  intros H. unfold main in H. inv_bind.
  match goal with E : main_layout _ _ _ _ _ = Ok ?l |- _ =>
    rename E into HL; rename l into L end.
  apply write_pass_spec in H as (srcs & -> & HF). eauto.
Qed.

(** The layout of a run that got as far as the second header. *)
Lemma main_layout_handles (root : string) (zoom : Z) (classical : bool) (L : layout) :
  main_layout image_size st_size root zoom classical = Ok L →
  TiffBuilder.build_header (builder L) (-1) = Ok (header L) ∧
  TiffBuilder.classical (builder L) = classical ∧
  offsets L = 9%nat ∧ counts L = 10%nat ∧
  ∃ eo ec,
    TiffBuilder.entries (builder L) !! 9%nat = Some eo ∧
    TiffEntry.type eo = LONG ∧ TiffEntry.count eo = total_tile zoom ∧
    TiffBuilder.entries (builder L) !! 10%nat = Some ec ∧
    TiffEntry.type ec = LONG ∧ TiffEntry.count ec = total_tile zoom.
Proof.
  unfold main_layout. destruct (Z.ltb_spec zoom 0) as [|Hz]; [discriminate|].
  intros H. inv_bind. destruct r as [tw th].
  destruct (main_builder_handles classical zoom tw th) as (es & Hmb & Eo & Ec).
  destruct (main_builder_spec classical zoom tw th) as (es' & Hmb' & Ho & Hc).
  rewrite Hmb in Hmb'. injection Hmb' as <-.
  rewrite Hmb in H. inv_bind.
  match goal with
  | E : offset_pass _ _ _ _ _ _ _ _ = Ok ?p |- _ => rename E into Ep; destruct p as [b1 d1]
  end.
  inv_bind.
  match goal with
  | E : TiffBuilder.build_header b1 _ = Ok ?h |- _ => rename E into Eh1; rename h into h1
  end.
  subst L. simpl.
  pose proof (total_tile_pos zoom Hz) as Ht.
  set (m := Z.to_nat (total_tile zoom)) in *.
  assert (total_tile zoom = Z.of_nat m) as Hm by lia.
  rewrite Hm in Ep.
  apply (offset_pass_spec st_size root zoom 9 10 ltac:(lia) m 0
           (TiffBuilder.mk classical es) _ _ _ _ _ Ho Hc)
    in Ep; try (unfold len; rewrite length_replicate; lia); [|lia].
  destruct Ep as (szs & _ & _ & _ & _ & _ & Hsh & Hcl).
  simpl in Hsh, Hcl.
  destruct (shape_lookup _ _ _ _ Hsh Eo) as (eo & Heo & Hto & Hco).
  destruct (shape_lookup _ _ _ _ Hsh Ec) as (ec & Hec & Htc & Hcc).
  repeat split; try done. exists eo, ec. simpl in *. repeat split; try done; lia.
Qed.

(** X19: when no reported size is negative, the offsets never decrease
    along the grid scan. *)
Theorem tile_offsets_monotone
    (root : string) (zoom : Z) (classical : bool) (L : layout) (i j : nat) (o o' : Z) :
  (∀ p s, st_size p = Some s → 0 ≤ s) →
  main_layout image_size st_size root zoom classical = Ok L →
  (i ≤ j)%nat →
  entry_values (builder L) (offsets L) !! i = Some o →
  entry_values (builder L) (offsets L) !! j = Some o' →
  o ≤ o'.
Proof.
  intros Hpos H Hij Hi Hj. apply main_layout_spec in H.
  destruct H as (Hz & szs & Hlen & Hst & Eo & _ & _).
  rewrite Eo in Hi, Hj.
  assert (Forall (λ x, 0 ≤ x) szs) as Hnn.
  { apply Forall_lookup. intros k s Hk. eapply Hpos, Hst, Hk. }
  pose proof (lookup_lt_Some _ _ _ Hi) as Li. pose proof (lookup_lt_Some _ _ _ Hj) as Lj.
  rewrite length_running in Li, Lj.
  destruct (lookup_lt_is_Some_2 szs i Li) as [ci Hci].
  destruct (lookup_lt_is_Some_2 szs j Lj) as [cj Hcj].
  rewrite (running_lookup _ _ _ _ Hci) in Hi. rewrite (running_lookup _ _ _ _ Hcj) in Hj.
  injection Hi as <-. injection Hj as <-.
  replace j with (i + (j - i))%nat by lia.
  rewrite <- take_take_drop, sum_Z_app.
  assert (0 ≤ sum_Z (take (j - i) (drop i szs)))
    by (apply sum_Z_nonneg, Forall_take, Forall_drop, Hnn).
  lia.
Qed.

Lemma small_zoom_sources (root : string) (zoom : Z) (L : layout) (szs : list Z)
    (srcs : list bytes) :
  (∀ p s, read_file p = Some s → st_size p = Some (len s)) →
  0 ≤ zoom ≤ 4 → len szs = total_tile zoom →
  (∀ i c, szs !! i = Some c →
          st_size (offset_pass_path root zoom (Z.of_nat i)) = Some c) →
  Forall2 (λ i s, read_file (write_pass_path root zoom i) = Some s)
    (seqZ 0 (total_tile zoom)) srcs →
  szs = len <$> srcs.
Proof using Type.
  intros Hfs Hz Hlen Hst HF.
  apply list_eq. intros i. rewrite list_lookup_fmap.
  pose proof (Forall2_length _ _ _ HF) as Hl. rewrite length_seqZ in Hl.
  unfold len in Hlen.
  destruct (srcs !! i) as [s|] eqn:Hs; simpl.
  - pose proof (lookup_lt_Some _ _ _ Hs) as Hi.
    assert (seqZ 0 (total_tile zoom) !! i = Some (Z.of_nat i)) as Hq
      by (rewrite lookup_seqZ; lia).
    pose proof (Forall2_lookup_lr _ _ _ _ _ _ HF Hq Hs) as Hr. simpl in Hr.
    apply Hfs in Hr.
    rewrite <- small_zoom_paths in Hr by lia.
    destruct (lookup_lt_is_Some_2 szs i ltac:(lia)) as [c Hc].
    rewrite Hc. pose proof (Hst i c Hc) as Hc'. congruence.
  - apply lookup_ge_None in Hs. apply lookup_ge_None. lia.
Qed.

(** X21: up to zoom 4, on a file system where a file that can be read has
    the size [os.stat] reports, the bytes of the output from an offset of
    the offsets array, in the length the counts array gives, are the
    content of the tile file of that grid cell. *)
Theorem tiles_at_their_offsets
    (root : string) (zoom : Z) (classical : bool) (out : bytes) :
  (∀ p s, read_file p = Some s → st_size p = Some (len s)) →
  zoom ≤ 4 →
  main image_size st_size read_file root zoom classical = Ok out →
  ∃ L, main_layout image_size st_size root zoom classical = Ok L ∧
       ∀ i o c,
         entry_values (builder L) (offsets L) !! i = Some o →
         entry_values (builder L) (counts L) !! i = Some c →
         read_file (write_pass_path root zoom (Z.of_nat i)) = Some (slice o c out).
Proof.
  intros Hfs Hz4 H. apply main_spec in H as (L & srcs & HL & -> & HF).
  exists L. split; [done|].
  destruct (main_layout_spec _ _ _ _ _ _ HL) as (Hz & szs & Hlen & Hst & -> & -> & _).
  pose proof (small_zoom_sources root zoom L szs srcs Hfs ltac:(lia) Hlen Hst HF) as ->.
  intros i o c Hi Hc.
  rewrite (running_lookup _ _ _ _ Hc) in Hi. injection Hi as <-.
  rewrite list_lookup_fmap in Hc.
  destruct (srcs !! i) as [s|] eqn:Hs; [|discriminate]. simpl in Hc. injection Hc as <-.
  pose proof (lookup_lt_Some _ _ _ Hs) as Li.
  pose proof (Forall2_length _ _ _ HF) as Hl. rewrite length_seqZ in Hl.
  assert (seqZ 0 (total_tile zoom) !! i = Some (Z.of_nat i)) as Hq
    by (rewrite lookup_seqZ; lia).
  pose proof (Forall2_lookup_lr _ _ _ _ _ _ HF Hq Hs) as Hr. simpl in Hr.
  rewrite Hr. f_equal. symmetry.
  rewrite <- fmap_take, sum_Z_len_concat.
  rewrite (concat_middle srcs i s Hs), app_assoc.
  apply slice_at; [|reflexivity]. rewrite len_app. reflexivity.
Qed.

(** X22: a run of [main] that returns has found a size for the file the
    offset pass names and a content for the file the write pass names, at
    every grid cell; at any zoom a tile missing under either name stops
    the run. *)
Theorem main_needs_every_tile
    (root : string) (zoom : Z) (classical : bool) (out : bytes) (i : Z) :
  main image_size st_size read_file root zoom classical = Ok out →
  0 ≤ i < total_tile zoom →
  is_Some (st_size (offset_pass_path root zoom i)) ∧
  is_Some (read_file (write_pass_path root zoom i)).
Proof.
  intros H Hi. apply main_spec in H as (L & srcs & HL & _ & HF).
  destruct (main_layout_spec _ _ _ _ _ _ HL) as (Hz & szs & Hlen & Hst & _).
  unfold len in Hlen. split.
  - destruct (lookup_lt_is_Some_2 szs (Z.to_nat i) ltac:(lia)) as [c Hc].
    exists c. rewrite <- (Hst _ _ Hc). do 2 f_equal. lia.
  - assert (seqZ 0 (total_tile zoom) !! Z.to_nat i = Some i) as Hq
      by (rewrite lookup_seqZ; lia).
    destruct (Forall2_lookup_l _ _ _ _ _ HF Hq) as (s & _ & Hs). exists s. exact Hs.
Qed.

(** X23: the final header carries the two arrays: at the offset stored in
    the record of the tile-offsets entry (the tenth) the header holds the
    offsets, 4 little-endian bytes each, and at the one stored in the
    record of the tile-byte-counts entry (the eleventh) the counts. *)
Theorem header_holds_tile_arrays
    (root : string) (zoom : Z) (classical : bool) (L : layout) :
  main_layout image_size st_size root zoom classical = Ok L →
  slice (stored_offset classical (header L) 9) (4 * total_tile zoom) (header L)
    = le_words 4 (entry_values (builder L) (offsets L)) ∧
  slice (stored_offset classical (header L) 10) (4 * total_tile zoom) (header L)
    = le_words 4 (entry_values (builder L) (counts L)).
Proof.
  intros HL.
  destruct (main_layout_spec _ _ _ _ _ _ HL) as (Hz & _).
  pose proof (total_tile_eq zoom) as Ht. pose proof (nside_pos zoom Hz) as Hn.
  assert (12 ≤ total_tile zoom) as H12 by (unfold nside2 in Ht; nia).
  destruct (main_layout_handles _ _ _ _ HL)
    as (Hb & Hcl & -> & -> & eo & ec & Heo & Hto & Hco & Hec & Htc & Hcc).
  assert (∀ k e, TiffBuilder.entries (builder L) !! k = Some e →
                 TiffEntry.type e = LONG → TiffEntry.count e = total_tile zoom →
                 slice (stored_offset classical (header L) k) (4 * total_tile zoom) (header L)
                 = le_words 4 (entry_values (builder L) k)) as Hgen.
  { intros k e He Hty Hcnt.
    assert (payload_size e = 4 * total_tile zoom) as Hps
      by (unfold payload_size; rewrite Hty, Hcnt; simpl; lia).
    destruct (overflow_slot_layout _ _ k e Hb He) as (tl & Htl & Hsl).
    { rewrite Hcl, Hps. destruct classical; simpl; lia. }
    assert (TiffEntry.has_tail e = true) as Hht.
    { unfold TiffEntry.has_tail. fold (payload_size e). apply Z.ltb_lt. lia. }
    destruct (tail_cases e tl Hht Htl) as (_ & _ & l & Hv & _ & _ & Etl).
    rewrite Hty in Etl. simpl in Etl.
    rewrite Hcl in Hsl.
    rewrite (tail_length e tl Htl) in Hsl. unfold tail_size in Hsl.
    rewrite Hht, Hps in Hsl. rewrite Hsl, Etl.
    unfold entry_values. rewrite He, Hv. reflexivity. }
  split; eapply Hgen; eassumption.
Qed.

End assembler_facts.

Lemma tile_offsets_monotone_witness :
  ∃ L,
    main_layout (λ _, Some (512, 512)) (λ _, Some 1000) "hips" 0 true = Ok L ∧
    ∀ o o',
      entry_values (builder L) (offsets L) !! 0%nat = Some o →
      entry_values (builder L) (offsets L) !! 1%nat = Some o' →
      o ≤ o'.
Proof.
  eexists. split; [vm_compute; reflexivity|].
  intros o o' H0 H1.
  eapply (tile_offsets_monotone (λ _, Some (512, 512)) (λ _, Some 1000)
            "hips" 0 true _ 0 1 o o').
  4: exact H0.
  4: exact H1.
  - intros p s [= <-]. lia.
  - vm_compute. reflexivity.
  - lia.
Defined.

Lemma tiles_at_their_offsets_witness :
  ∃ out,
    main (λ _, Some (256, 256)) (λ _, Some 3) (λ _, Some [255; 216; 255]) "hips" 0 true
      = Ok out ∧
    ∃ L,
      main_layout (λ _, Some (256, 256)) (λ _, Some 3) "hips" 0 true = Ok L ∧
      ∀ i o c,
        entry_values (builder L) (offsets L) !! i = Some o →
        entry_values (builder L) (counts L) !! i = Some c →
        (λ _ : list string, Some [255; 216; 255])
          (write_pass_path "hips" 0 (Z.of_nat i)) = Some (slice o c out).
Proof.
  eexists. split; [vm_compute; reflexivity|].
  apply (tiles_at_their_offsets (λ _, Some (256, 256)) (λ _, Some 3)
           (λ _, Some [255; 216; 255])).
  - intros p s [= <-]. reflexivity.
  - lia.
  - vm_compute. reflexivity.
Defined.

Lemma main_needs_every_tile_witness :
  is_Some ((λ _ : list string, Some 3) (offset_pass_path "hips" 0 5)) ∧
  is_Some ((λ _ : list string, Some [255; 216; 255]) (write_pass_path "hips" 0 5)).
Proof.
  eapply (main_needs_every_tile (λ _, Some (256, 256)) (λ _, Some 3)
            (λ _, Some [255; 216; 255]) "hips" 0 true _ 5).
  - vm_compute. reflexivity.
  - vm_compute. split; [discriminate|reflexivity].
Defined.

Lemma header_holds_tile_arrays_witness :
  ∃ L,
    main_layout (λ _, Some (512, 512)) (λ _, Some 1000) "hips" 0 false = Ok L ∧
    slice (stored_offset false (header L) 9) (4 * total_tile 0) (header L)
      = le_words 4 (entry_values (builder L) (offsets L)) ∧
    slice (stored_offset false (header L) 10) (4 * total_tile 0) (header L)
      = le_words 4 (entry_values (builder L) (counts L)).
Proof.
  eexists. split; [vm_compute; reflexivity|].
  apply (header_holds_tile_arrays (λ _, Some (512, 512)) (λ _, Some 1000) "hips" 0 false).
  vm_compute. reflexivity.
Defined.
